(** * Nomad/Traefik/Cloudflare controller: a shallow embedding

    This development embeds the reconciliation core of the controller
    (packages [cloudflare], [nomad], [config] and the control loop of
    [main]) and proves its specified properties.

    Conventions of the embedding:
    - Go strings are [string]; Go's [os.Getenv] of an unset variable is [""].
    - a Go [error] is [option string] ([None] is [nil]).
    - a Go [map[string]string] is a [gmap string string]; ranging over it
      is ranging over [map_to_list]. Go randomises the iteration order of a
      map, so every statement below about the calls issued while ranging
      over a map is made up to permutation (or about membership).
    - a provider (Cloudflare or Nomad) API call is an oracle: a function
      from the call to its error result. *)

From stdpp Require Import base list gmap strings fin_maps.
From Stdlib Require Import ZArith.

(* ------------------------------------------------------------------ *)
(** ** Package [types] *)

Module NodeInfo.
(** [types.NodeInfo] *)
Record t := mk {
  ID : string;
  Name : string;
  PublicIPAddress : string;
  Status : string
}.
End NodeInfo.

Module DNSRecord.
(** [types.DNSRecord]; the Go field [Type] is [Type_] here. *)
Record t := mk {
  ID : string;
  Name : string;
  Type_ : string;
  Content : string;
  TTL : Z
}.
End DNSRecord.

(* ------------------------------------------------------------------ *)
(** ** Package [cloudflare] *)

Module Cloudflare.

(** The per-record provider calls [SyncARecords] makes. *)
Inductive call :=
| DeleteARecord (recordID : string)
| CreateARecord (target : string).

#[global] Instance call_eq_dec : EqDecision call.
Proof. solve_decision. Defined.

(** The provider: the result of [ListDNSRecords] for the configured
    name and type ["A"], and the error result of each per-record call. *)
Record provider := mkProvider {
  list_records : string + list DNSRecord.t;
  call_result : call -> option string
}.

(** What a pass leaves in the log: each per-record call, either
    succeeded or failed with its (logged) error. *)
Inductive entry :=
| Succeeded (c : call)
| LoggedError (c : call) (err : string).

Definition entry_call (e : entry) : call :=
  match e with Succeeded c | LoggedError c _ => c end.

(** [getARecords]: one listing call, the fields copied one by one. *)
Definition getARecords (p : provider) : string + list DNSRecord.t :=
  match list_records p with
  | inl err => inl ("Failed to list DNS records: " +:+ err)%string
  | inr records =>
      inr ((fun record => DNSRecord.mk (DNSRecord.ID record)
             (DNSRecord.Name record) (DNSRecord.Type_ record)
             (DNSRecord.Content record) (DNSRecord.TTL record)) <$> records)
  end.

(** One provider call inside a loop: on error, [log.Error] and go on. *)
Definition do_call (p : provider) (c : call) (log : list entry) : list entry :=
  match call_result p c with
  | None => log ++ [Succeeded c]
  | Some err => log ++ [LoggedError c err]
  end.

(** [for _, record := range currentRecords { DeleteARecord(record.ID) }] *)
Fixpoint delete_all (p : provider) (currentRecords : list DNSRecord.t)
    (log : list entry) : list entry :=
  match currentRecords with
  | [] => log
  | record :: rest =>
      delete_all p rest (do_call p (DeleteARecord (DNSRecord.ID record)) log)
  end.

(** [currentTargets[record.Content] = record.ID] for each record, in order *)
Definition currentTargets_of (currentRecords : list DNSRecord.t)
    : gmap string string :=
  foldl (fun m record => <[DNSRecord.Content record := DNSRecord.ID record]> m)
    ∅ currentRecords.

(** [targetSet[ip] = true] for each ip *)
Definition targetSet_of (targetIPs : list string) : gset string :=
  foldl (fun s ip => {[ip]} ∪ s) ∅ targetIPs.

(** [for target, recordID := range currentTargets { if !targetSet[target] ... }] *)
Fixpoint delete_stale (p : provider) (targetSet : gset string)
    (entries : list (string * string)) (log : list entry) : list entry :=
  match entries with
  | [] => log
  | (target, recordID) :: rest =>
      if decide (target ∈ targetSet)
      then delete_stale p targetSet rest log
      else delete_stale p targetSet rest (do_call p (DeleteARecord recordID) log)
  end.

(** [for _, target := range targetIPs { if _, exists := currentTargets[target]; !exists ... }] *)
Fixpoint create_missing (p : provider) (currentTargets : gmap string string)
    (targetIPs : list string) (log : list entry) : list entry :=
  match targetIPs with
  | [] => log
  | target :: rest =>
      match currentTargets !! target with
      | Some _ => create_missing p currentTargets rest log
      | None => create_missing p currentTargets rest
                  (do_call p (CreateARecord target) log)
      end
  end.

(** [SyncARecords]: the log of per-record calls and the returned error. *)
Definition SyncARecords (p : provider) (targetIPs : list string)
    : list entry * option string :=
  match getARecords p with
  | inl err => ([], Some ("failed to get current A records: " +:+ err)%string)
  | inr currentRecords =>
      match targetIPs with
      | [] => (delete_all p currentRecords [], None)
      | _ :: _ =>
          let currentTargets := currentTargets_of currentRecords in
          let targetSet := targetSet_of targetIPs in
          let log := delete_stale p targetSet (map_to_list currentTargets) [] in
          let log := create_missing p currentTargets targetIPs log in
          (log, None)
      end
  end.

(** The calls a pass attempts, in order. *)
Definition sync_calls (p : provider) (targetIPs : list string) : list call :=
  entry_call <$> (SyncARecords p targetIPs).1.

(** The (content, id) pairs the map is filled from. *)
Definition pairs (R : list DNSRecord.t) : list (string * string) :=
  (fun r => (DNSRecord.Content r, DNSRecord.ID r)) <$> R.

(** A log entry agrees with the provider's result for its call. *)
Definition entry_faithful (p : provider) (e : entry) : Prop :=
  match e with
  | Succeeded c => call_result p c = None
  | LoggedError c err => call_result p c = Some err
  end.

(** The provider as observed: records, all per-record calls succeed. *)
Definition observed (R : list DNSRecord.t) : provider :=
  mkProvider (inr R) (fun _ => None).

End Cloudflare.

(** The provider's record store under the per-record calls (Cloudflare's
    side, not code of this repository): a delete removes the record with
    that id, a create appends a record with a provider-assigned id
    ([fresh n] for the [n]-th create), the configured [name], type ["A"]
    and TTL [0], as [CreateARecord] sends it. *)
Module Store.
Import Cloudflare.

Definition apply_call (fresh : nat -> string) (name : string)
    (st : list DNSRecord.t * nat) (c : call) : list DNSRecord.t * nat :=
  match c with
  | DeleteARecord recordID =>
      (filter (fun r => DNSRecord.ID r <> recordID) st.1, st.2)
  | CreateARecord target =>
      (st.1 ++ [DNSRecord.mk (fresh st.2) name "A" target 0], S st.2)
  end.

Definition apply_calls (fresh : nat -> string) (name : string)
    (R : list DNSRecord.t) (cs : list call) : list DNSRecord.t :=
  (foldl (apply_call fresh name) (R, 0) cs).1.

End Store.

(* ------------------------------------------------------------------ *)
(** ** Package [nomad] *)

Module Nomad.

(** The fields of [nomadapi.AllocationListStub] the controller reads. *)
Record Allocation := mkAllocation {
  NodeID : string;
  ClientStatus : string
}.

(** The fields of [nomadapi.Node] the controller reads. *)
Record Node := mkNode {
  ID : string;
  Name : string;
  Attributes : gmap string string;
  Status : string
}.

(** The Nomad API: [Jobs().Allocations(job, true, nil)] and
    [Nodes().Info(id, nil)], each with its error result. *)
Record api := mkApi {
  Allocations : string -> string + list Allocation;
  Info : string -> string + Node
}.

(** Go's [m[k]] on a [map[string]string]: the zero value when absent. *)
Definition index (m : gmap string string) (k : string) : string :=
  match m !! k with Some v => v | None => "" end.

(** The body of the allocation loop of [GetTraefikNodes]. *)
Definition add_alloc (c : api) (nodeMap : gmap string NodeInfo.t)
    (alloc : Allocation) : gmap string NodeInfo.t :=
  if decide (ClientStatus alloc <> "running") then nodeMap
  else match Info c (NodeID alloc) with
       | inl _ => nodeMap (* log.Warn, continue *)
       | inr node =>
           let nodeInfo := NodeInfo.mk (ID node) (Name node)
                 (index (Attributes node) "unique.network.ip-address")
                 (Status node) in
           <[ID node := nodeInfo]> nodeMap
       end.

(** Every node of the map is stored under its own id. *)
Definition keyed (m : gmap string NodeInfo.t) : Prop :=
  forall k v, m !! k = Some v -> NodeInfo.ID v = k.

(** [GetTraefikNodes] for the configured job name. *)
Definition GetTraefikNodes (c : api) (TraefikJobName : string)
    : string + list NodeInfo.t :=
  match Allocations c TraefikJobName with
  | inl err => inl ("Failed to get allocations for job " +:+ TraefikJobName
                    +:+ ": " +:+ err)%string
  | inr allocations =>
      let nodeMap := foldl (add_alloc c) ∅ allocations in
      inr ((map_to_list nodeMap).*2)
  end.

(** The JSON values a Nomad event payload may hold ([interface{}]). *)
Inductive value :=
| VString (s : string)
| VNumber (z : Z)
| VBool (b : bool)
| VNull
| VObject.

(** [nomadapi.Event]; [Index] is a [uint64]. *)
Record Event := mkEvent {
  Topic : string;
  Type_ : string;
  Key : string;
  Index : N;
  Payload : option (gmap string value)  (* [None] is a nil map *)
}.

(** [types.Event]; [Timestamp] is [time.Unix(0, ns)] as its nanoseconds,
    [Details] is [map{"raw": event}], kept as the raw event. *)
Record ClusterEvent := mkClusterEvent {
  ce_Type : string;
  ce_Timestamp : Z;
  ce_NodeID : string;
  ce_JobID : string;
  ce_Details : Event
}.

(** [int64(x)] for a [uint64] [x]: two's-complement wrap-around. *)
Definition int64_of_uint64 (x : N) : Z :=
  let z := (Z.of_N x mod 2 ^ 64)%Z in
  if Z.ltb z (2 ^ 63)%Z then z else (z - 2 ^ 64)%Z.

(** [nodeID, ok := payload[key]; nodeIDStr, ok := nodeID.(string)] *)
Definition string_field (payload : gmap string value) (key : string)
    : option string :=
  match payload !! key with
  | Some (VString s) => Some s
  | _ => None
  end.

Definition known_types : list string :=
  ["AllocationUpdated"; "NodeUpdated"; "JobRegistered"; "JobDeregistered"].

(** [processEvent] *)
Definition processEvent (event : Event) : option ClusterEvent :=
  if decide (Type_ event ∈ known_types) then
    let processedEvent :=
      mkClusterEvent (Type_ event) (int64_of_uint64 (Index event)) "" "" event in
    let processedEvent :=
      match Payload event with
      | None => processedEvent
      | Some payload =>
          let e1 := match string_field payload "NodeID" with
                    | Some nodeIDStr =>
                        mkClusterEvent (ce_Type processedEvent)
                          (ce_Timestamp processedEvent) nodeIDStr
                          (ce_JobID processedEvent) (ce_Details processedEvent)
                    | None => processedEvent
                    end in
          match string_field payload "JobID" with
          | Some jobIDStr =>
              mkClusterEvent (ce_Type e1) (ce_Timestamp e1) (ce_NodeID e1)
                jobIDStr (ce_Details e1)
          | None => e1
          end
      end in
    Some processedEvent
  else None.

End Nomad.

(* ------------------------------------------------------------------ *)
(** ** Package [config] *)

(** The process environment: [os.Getenv]; an unset variable reads [""]. *)
Definition env := string -> string.

(** [config.LoadConfig] as in [config/config.go] (the version its tests
    and the [cloudflare] package, which reads [CloudflareZoneId], use). *)
Module Config.

Record Config := mkConfig {
  NomadAddress : string;
  NomadToken : string;
  CloudflareToken : string;
  CloudflareZoneId : string;
  TraefikJobName : string;
  DNSRecordName : string;
  LogLevel : string
}.

Definition getEnvOrDefault (e : env) (key defaultValue : string) : string :=
  let value := e key in
  if decide (value <> "") then value else defaultValue.

Definition LoadConfig (e : env) : string + Config :=
  let config := mkConfig
    (getEnvOrDefault e "NOMAD_ADDR" "http://localhost:8686")
    (e "NOMAD_TOKEN")
    (e "CLOUDFLARE_API_TOKEN")
    (e "CLOUDFLARE_ZONE_ID")
    (e "TRAEFIK_JOB_NAME")
    (e "DNS_RECORD_NAME")
    (getEnvOrDefault e "LOG_LEVEL" "info") in
  if decide (CloudflareToken config = "") then
    inl "CLOUDFLARE_API_TOKEN is not set and is required."
  else if decide (CloudflareZoneId config = "") then
    inl "CLOUDFLARE_ZONE_ID is not set and is required."
  else if decide (NomadToken config = "") then
    inl "Nomad token is not set and is required."
  else inr config.

End Config.

(** The second [config.LoadConfig] of the repository (field
    [CloudflareZoneID], default job name ["ingress"], five checks). *)
Module ConfigV2.

Record Config := mkConfig {
  NomadAddress : string;
  NomadToken : string;
  CloudflareToken : string;
  CloudflareZoneID : string;
  TraefikJobName : string;
  DNSRecordName : string;
  LogLevel : string
}.

Definition LoadConfig (e : env) : string + Config :=
  let config := mkConfig
    (Config.getEnvOrDefault e "NOMAD_ADDR" "http://localhost:8686")
    (e "NOMAD_TOKEN")
    (e "CLOUDFLARE_API_TOKEN")
    (e "CLOUDFLARE_ZONE_ID")
    (Config.getEnvOrDefault e "TRAEFIK_JOB_NAME" "ingress")
    (e "DNS_RECORD_NAME")
    (Config.getEnvOrDefault e "LOG_LEVEL" "info") in
  if decide (CloudflareToken config = "") then
    inl "variable CLOUDFLARE_API_TOKEN is not set and is required"
  else if decide (CloudflareZoneID config = "") then
    inl "variable CLOUDFLARE_ZONE_ID is not set and is required"
  else if decide (TraefikJobName config = "") then
    inl "variable TRAEFIK_JOB_NAME is not set and is required"
  else if decide (DNSRecordName config = "") then
    inl "variable DNS_RECORD_NAME is not set and is required"
  else if decide (NomadToken config = "") then
    inl "nomad token is not set and is required"
  else inr config.

End ConfigV2.

(* ------------------------------------------------------------------ *)
(** ** Package [main]: the controller *)

Module Controller.
Import Cloudflare.

(** The address-extraction loop of [syncDNSRecords]. *)
Fixpoint extract_ips (nodes : list NodeInfo.t) (ips : list string)
    : list string :=
  match nodes with
  | [] => ips
  | node :: rest =>
      if decide (NodeInfo.Status node = "ready"
                 /\ NodeInfo.PublicIPAddress node <> "")
      then extract_ips rest (ips ++ [NodeInfo.PublicIPAddress node])
      else extract_ips rest ips
  end.

(** [syncDNSRecords]: resolve the nodes, extract the addresses, sync. *)
Definition syncDNSRecords (nc : Nomad.api) (TraefikJobName : string)
    (p : provider) : list entry * option string :=
  match Nomad.GetTraefikNodes nc TraefikJobName with
  | inl err => ([], Some err)
  | inr nodes => SyncARecords p (extract_ips nodes [])
  end.

(** The part of [metrics.Server] the loop touches, and the log. *)
Record Server := mkServer {
  ready : bool;
  logged : list string
}.

(** [metrics.NewServer]: [ready.Store(false)]. *)
Definition NewServer : Server := mkServer false [].

Definition SetReady (b : bool) (s : Server) : Server :=
  mkServer b (logged s ++ [if b then "Application marked as ready"
                           else "Application marked as not ready"]).

Definition log_error (msg : string) (s : Server) : Server :=
  mkServer (ready s) (logged s ++ [msg]).

(** What wakes the main [select] of [Run]; a pass carries the error
    result of the [syncDNSRecords] call it triggers. *)
Inductive trigger :=
| CtxDone
| WatchFatal (err : string)
| NomadEvent (sync_result : option string)
| TickerFired (sync_result : option string).

Inductive status :=
| Looping
| Returned (err : string).

(** The main event loop of [Run]. *)
Fixpoint main_loop (s : Server) (ts : list trigger) : Server * status :=
  match ts with
  | [] => (s, Looping)
  | CtxDone :: _ => (s, Returned "context canceled")
  | WatchFatal err :: _ =>
      (log_error "Event watcher exceeded error threshold, shutting down" s,
       Returned err)
  | NomadEvent r :: rest =>
      let s := match r with
               | Some _ => log_error "Sync after event failed" s
               | None => s
               end in
      main_loop s rest
  | TickerFired r :: rest =>
      let s := match r with
               | Some _ => log_error "Periodic sync failed" s
               | None => s
               end in
      main_loop s rest
  end.

(** [Run]: the initial sync, then the main loop. *)
Definition Run (initial : option string) (ts : list trigger) : Server * status :=
  let s := match initial with
           | Some _ => log_error "Initial sync failed" NewServer
           | None => SetReady true NewServer
           end in
  main_loop s ts.

End Controller.

(* ------------------------------------------------------------------ *)
(** ** [nomad.WatchEvents] *)

Module Watch.
Import Nomad.

(** One [*nomadapi.Events] received from the event stream, with its [Err]
    and its [Events]. *)
Record Events := mkEvents {
  Err : option string;
  EventList : list Event
}.

(** What the outer [select] of [WatchEvents] takes: a stream item, the
    nil [*Events] a receive on the stream channel yields once the Nomad
    client has closed it (after a stream error or the end of the stream),
    or the cancellation of the context. *)
Inductive item :=
| Recv (w : Events)
| RecvNil
| CtxDone.

(** How [WatchEvents] stands after the items seen so far: still running
    (waiting for an item or blocked on a send), returned with an error,
    or panicked (the nil dereference [eventWrapper.Err]). *)
Inductive status :=
| Watching
| Returned (err : string)
| Panicked.

(** [for _, event := range eventWrapper.Events { ... }]: each decoded event
    is sent by a [select] on [eventChan <- e] and [ctx.Done()]; [sends]
    gives the outcome of these selects in order ([true]: sent, [false]:
    the context was done first). The send lists left, and [Some] status
    when the function stops here. *)
Fixpoint forward (events : list Event) (sends : list bool)
    (sent : list ClusterEvent)
    : list ClusterEvent * list bool * option status :=
  match events with
  | [] => (sent, sends, None)
  | event :: rest =>
      match processEvent event with
      | None => forward rest sends sent
      | Some processedEvent =>
          match sends with
          | [] => (sent, [], Some Watching) (* blocked on the send *)
          | true :: sends => forward rest sends (sent ++ [processedEvent])
          | false :: sends => (sent, sends, Some (Returned "context canceled"))
          end
      end
  end.

(** The [for { select ... }] loop: the events sent, the stream errors
    logged, and how the function stands. *)
Fixpoint watch_loop (items : list item) (sends : list bool)
    (sent : list ClusterEvent) (logged : list string)
    : list ClusterEvent * list string * status :=
  match items with
  | [] => (sent, logged, Watching)
  | CtxDone :: _ => (sent, logged, Returned "context canceled")
  | RecvNil :: _ => (sent, logged, Panicked) (* eventWrapper.Err on nil *)
  | Recv w :: rest =>
      match Err w with
      | Some err => watch_loop rest sends sent (logged ++ [err]) (* log.Error; continue *)
      | None =>
          match forward (EventList w) sends sent with
          | (sent, sends, None) => watch_loop rest sends sent logged
          | (sent, _, Some st) => (sent, logged, st)
          end
      end
  end.

(** [WatchEvents]: [setup] is the error result of [EventStream().Stream]. *)
Definition WatchEvents (setup : option string) (items : list item)
    (sends : list bool) : list ClusterEvent * list string * status :=
  match setup with
  | Some err => ([], [], Returned ("failed to start event stream: " +:+ err)%string)
  | None => watch_loop items sends [] []
  end.

End Watch.

(* ------------------------------------------------------------------ *)
(** ** Package [metrics] and the metered [syncDNSRecords] *)

Module Metrics.

(** [metrics.Metrics]: counters and gauges as their values, the
    histogram as the list of its observations (seconds). *)
Record Metrics := mkMetrics {
  SyncTotal : nat;
  SyncErrors : nat;
  SyncDuration : list Z;
  DNSRecordsTotal : nat;
  TraefikNodes : nat;
  LastSyncTime : Z
}.

(** The closure [RecordSyncStart] returns, called [duration] seconds
    after the start, at Unix time [now]. [None] is a nil [AppMetrics]. *)
Definition record (AppMetrics : option Metrics) (duration now : Z)
    (err : option string) (dnsRecords traefikNodes : nat) : option Metrics :=
  match AppMetrics with
  | None => None (* Metrics not initialized *)
  | Some m =>
      let m := mkMetrics (S (SyncTotal m)) (SyncErrors m)
                 (SyncDuration m ++ [duration]) dnsRecords traefikNodes
                 (LastSyncTime m) in
      match err with
      | Some _ => Some (mkMetrics (SyncTotal m) (S (SyncErrors m))
                   (SyncDuration m) (DNSRecordsTotal m) (TraefikNodes m)
                   (LastSyncTime m))
      | None => Some (mkMetrics (SyncTotal m) (SyncErrors m)
                   (SyncDuration m) (DNSRecordsTotal m) (TraefikNodes m) now)
      end
  end.

(** The HTTP status and the ["status"] field of the [/ready] handler. *)
Definition ready_handler (ready : bool) : nat * string :=
  if ready then (200, "ready") else (503, "not ready").

(** [syncDNSRecords] with its metrics: the DNS log, the returned error and
    the metrics after the pass. *)
Definition syncDNSRecords (AppMetrics : option Metrics) (duration now : Z)
    (nc : Nomad.api) (TraefikJobName : string) (p : Cloudflare.provider)
    : list Cloudflare.entry * option string * option Metrics :=
  match Nomad.GetTraefikNodes nc TraefikJobName with
  | inl err => ([], Some err, record AppMetrics duration now (Some err) 0 0)
  | inr nodes =>
      let ips := Controller.extract_ips nodes [] in
      match Cloudflare.SyncARecords p ips with
      | (log, Some err) =>
          (log, Some err,
           record AppMetrics duration now (Some err) (length ips) (length nodes))
      | (log, None) =>
          (log, None,
           record AppMetrics duration now None (length ips) (length nodes))
      end
  end.

End Metrics.

(* ------------------------------------------------------------------ *)
(** ** Concrete inputs *)

Module Examples.
(** Records of the hostname [h], as the provider lists them. *)
Definition recA := DNSRecord.mk "A" "h" "A" "1.1.1.1" 0.
Definition recB := DNSRecord.mk "B" "h" "A" "2.2.2.2" 0.
(** A second record with [recB]'s content, a provider-side anomaly. *)
Definition recC := DNSRecord.mk "C" "h" "A" "2.2.2.2" 0.
(** Ids a provider hands out to created records. *)
Definition fresh_id (n : nat) : string :=
  match n with 0 => "N0" | 1 => "N1" | _ => "N" end.
(** Two running allocations of the job on node [n1], one pending on [n2]. *)
Definition example_nomad : Nomad.api :=
  Nomad.mkApi
    (fun job => if decide (job = "traefik")
                then inr [Nomad.mkAllocation "n1" "running";
                          Nomad.mkAllocation "n1" "running";
                          Nomad.mkAllocation "n2" "pending"]
                else inl "job not found")
    (fun id => inr (Nomad.mkNode id id
                      {[ "unique.network.ip-address" := "10.0.0.1" ]} "ready")).
End Examples.

(* ================================================================== *)
(** * Properties *)

(** ** The loops of [SyncARecords] *)
Module CloudflareFacts.
Import Cloudflare.

Lemma do_call_calls p c log :
  entry_call <$> do_call p c log = (entry_call <$> log) ++ [c].
Proof. unfold do_call. destruct (call_result p c); by rewrite fmap_app. Qed.

Lemma delete_all_calls p rs log :
  entry_call <$> delete_all p rs log
  = (entry_call <$> log) ++ ((fun r => DeleteARecord (DNSRecord.ID r)) <$> rs).
Proof.
  revert log. induction rs as [|r rs IH]; intros log; simpl.
  - by rewrite app_nil_r.
  - rewrite IH, do_call_calls. by rewrite <- app_assoc.
Qed.

Lemma delete_stale_calls p s es log :
  entry_call <$> delete_stale p s es log
  = (entry_call <$> log)
    ++ ((fun e => DeleteARecord e.2) <$> filter (fun e => e.1 ∉ s) es).
Proof.
  revert log. induction es as [|[t i] es IH]; intros log; simpl.
  - by rewrite app_nil_r.
  - rewrite filter_cons. simpl. case_decide as Hin.
    + rewrite decide_False by tauto. apply IH.
    + rewrite decide_True by tauto. simpl.
      rewrite IH, do_call_calls. by rewrite <- app_assoc.
Qed.

Lemma create_missing_calls p m ips log :
  entry_call <$> create_missing p m ips log
  = (entry_call <$> log)
    ++ (CreateARecord <$> filter (fun t => m !! t = None) ips).
Proof.
  revert log. induction ips as [|t ips IH]; intros log; simpl.
  - by rewrite app_nil_r.
  - rewrite filter_cons. destruct (m !! t) eqn:Ht.
    + rewrite decide_False by congruence. apply IH.
    + rewrite decide_True by done. simpl.
      rewrite IH, do_call_calls. by rewrite <- app_assoc.
Qed.

Lemma targetSet_of_spec ips x : x ∈ targetSet_of ips <-> x ∈ ips.
Proof.
  unfold targetSet_of.
  assert (forall s : gset string,
    x ∈ foldl (fun s ip => {[ip]} ∪ s) s ips <-> x ∈ s \/ x ∈ ips)
    as H.
  { induction ips as [|ip ips IH]; intros s; simpl.
    - rewrite elem_of_nil. tauto.
    - rewrite IH, elem_of_union, elem_of_singleton, elem_of_cons. tauto. }
  rewrite H. set_solver.
Qed.

Lemma getARecords_inr p R :
  list_records p = inr R -> getARecords p = inr R.
Proof.
  intros H. unfold getARecords. rewrite H. f_equal. clear H.
  induction R as [|[] R IH]; simpl; [done|]. f_equal. exact IH.
Qed.

Lemma getARecords_inl p err :
  list_records p = inl err -> exists e, getARecords p = inl e.
Proof. intros H. unfold getARecords. rewrite H. eauto. Qed.

(** The calls of a pass whose listing returned [R]. *)
Lemma sync_calls_shape p R D :
  list_records p = inr R ->
  sync_calls p D =
    match D with
    | [] => (fun r => DeleteARecord (DNSRecord.ID r)) <$> R
    | _ :: _ =>
        ((fun e => DeleteARecord e.2)
           <$> filter (fun e => e.1 ∉ targetSet_of D)
                 (map_to_list (currentTargets_of R)))
        ++ (CreateARecord
              <$> filter (fun t => currentTargets_of R !! t = None) D)
    end.
Proof.
  intros H. unfold sync_calls, SyncARecords.
  rewrite (getARecords_inr _ _ H). destruct D as [|t D]; cbn [fst].
  - by rewrite delete_all_calls.
  - rewrite create_missing_calls, delete_stale_calls. done.
Qed.

Lemma sync_calls_listing_failed p D err :
  list_records p = inl err -> sync_calls p D = [].
Proof.
  intros H. destruct (getARecords_inl _ _ H) as [e He].
  unfold sync_calls, SyncARecords. by rewrite He.
Qed.

(** *** The content-to-id map *)

Lemma currentTargets_of_list_to_map R :
  currentTargets_of R = list_to_map (reverse (pairs R)).
Proof.
  unfold currentTargets_of, pairs. induction R as [|r R IH] using rev_ind.
  - done.
  - rewrite foldl_app, IH, fmap_app, reverse_app. simpl. done.
Qed.

Lemma currentTargets_of_None R t :
  currentTargets_of R !! t = None <-> t ∉ DNSRecord.Content <$> R.
Proof.
  rewrite currentTargets_of_list_to_map, <- not_elem_of_list_to_map.
  unfold pairs. rewrite fmap_reverse, elem_of_reverse, <- list_fmap_compose.
  done.
Qed.

Lemma filter_pairs R D :
  (fun e => DeleteARecord e.2) <$> filter (fun e => e.1 ∉ targetSet_of D) (pairs R)
  = (fun r => DeleteARecord (DNSRecord.ID r))
      <$> filter (fun r => DNSRecord.Content r ∉ D) R.
Proof.
  induction R as [|r R IH]; [done|]. unfold pairs in *. simpl.
  rewrite !filter_cons. simpl.
  destruct (decide (DNSRecord.Content r ∈ D)) as [Hin|Hin].
  - rewrite !decide_False by (rewrite ?targetSet_of_spec; tauto). exact IH.
  - rewrite !decide_True by (rewrite ?targetSet_of_spec; tauto).
    simpl. f_equal. exact IH.
Qed.

(** With pairwise distinct contents every record has its own map entry. *)
Lemma stale_deletes_distinct R D :
  NoDup (DNSRecord.Content <$> R) ->
  (fun e => DeleteARecord e.2)
    <$> filter (fun e => e.1 ∉ targetSet_of D) (map_to_list (currentTargets_of R))
  ≡ₚ (fun r => DeleteARecord (DNSRecord.ID r))
      <$> filter (fun r => DNSRecord.Content r ∉ D) R.
Proof.
  intros Hnd. rewrite currentTargets_of_list_to_map, map_to_list_to_map.
  - rewrite reverse_Permutation. by rewrite filter_pairs.
  - rewrite fmap_reverse, reverse_Permutation. unfold pairs.
    by rewrite <- list_fmap_compose.
Qed.

Lemma filter_not_in_nil (R : list DNSRecord.t) :
  filter (fun r => DNSRecord.Content r ∉ ([] : list string)) R = R.
Proof.
  induction R as [|r R IH]; [done|].
  rewrite filter_cons_True by apply not_elem_of_nil. by rewrite IH.
Qed.

Lemma creates_eq R (D : list string) :
  filter (fun t => currentTargets_of R !! t = None) D
  = filter (fun t => t ∉ DNSRecord.Content <$> R) D.
Proof. apply list_filter_iff. intros t. apply currentTargets_of_None. Qed.

(** *** The log records each call's outcome *)

Lemma do_call_faithful p c log :
  Forall (entry_faithful p) log -> Forall (entry_faithful p) (do_call p c log).
Proof.
  intros H. unfold do_call. destruct (call_result p c) eqn:E;
    apply Forall_app; split; auto; constructor; simpl; auto.
Qed.

Lemma loops_faithful p :
  (forall rs log, Forall (entry_faithful p) log ->
     Forall (entry_faithful p) (delete_all p rs log)) /\
  (forall s es log, Forall (entry_faithful p) log ->
     Forall (entry_faithful p) (delete_stale p s es log)) /\
  (forall m ips log, Forall (entry_faithful p) log ->
     Forall (entry_faithful p) (create_missing p m ips log)).
Proof.
  split; [|split].
  - intros rs. induction rs; intros log H; simpl; auto using do_call_faithful.
  - intros s es. induction es as [|[t i] es IH]; intros log H; simpl; [done|].
    case_decide; auto using do_call_faithful.
  - intros m ips. induction ips as [|t ips IH]; intros log H; simpl; [done|].
    destruct (m !! t); auto using do_call_faithful.
Qed.

Lemma SyncARecords_faithful p D :
  Forall (entry_faithful p) (SyncARecords p D).1.
Proof.
  destruct (loops_faithful p) as (H1 & H2 & H3).
  unfold SyncARecords. destruct (getARecords p); cbn [fst]; [done|].
  destruct D; cbn [fst]; auto.
Qed.

(** *** Records sharing a content *)

Lemma currentTargets_of_Some R k v :
  currentTargets_of R !! k = Some v ->
  exists r, r ∈ R /\ DNSRecord.Content r = k /\ DNSRecord.ID r = v.
Proof.
  rewrite currentTargets_of_list_to_map. intros H.
  apply elem_of_list_to_map_2 in H. rewrite elem_of_reverse in H.
  unfold pairs in H. apply list_elem_of_fmap in H as (r & Hr & Hin).
  injection Hr as -> ->. eauto.
Qed.

Lemma foldl_targets_untouched (R2 : list DNSRecord.t) (m : gmap string string) k :
  (forall r', r' ∈ R2 -> DNSRecord.Content r' <> k) ->
  foldl (fun m record => <[DNSRecord.Content record := DNSRecord.ID record]> m)
    m R2 !! k = m !! k.
Proof.
  revert m. induction R2 as [|r' R2 IH]; intros m H; simpl; [done|].
  rewrite IH by (intros; apply H; set_solver).
  apply lookup_insert_ne. apply H. set_solver.
Qed.

(** The map keeps, for each content, the id of its last record. *)
Lemma currentTargets_of_last R1 r R2 :
  (forall r', r' ∈ R2 -> DNSRecord.Content r' <> DNSRecord.Content r) ->
  currentTargets_of (R1 ++ r :: R2) !! DNSRecord.Content r
  = Some (DNSRecord.ID r).
Proof.
  intros H. unfold currentTargets_of. rewrite foldl_app. simpl.
  rewrite foldl_targets_untouched by exact H. apply lookup_insert_eq.
Qed.

Lemma NoDup_fmap_same {A B} (f : A -> B) (l : list A) x y :
  NoDup (f <$> l) -> x ∈ l -> y ∈ l -> f x = f y -> x = y.
Proof.
  induction l as [|a l IH]; simpl; intros Hnd Hx Hy Hf;
    [by apply not_elem_of_nil in Hx|].
  apply NoDup_cons in Hnd as [Ha Hnd].
  apply elem_of_cons in Hx, Hy.
  destruct Hx as [->|Hx], Hy as [->|Hy]; auto.
  - exfalso. apply Ha. rewrite Hf. by apply list_elem_of_fmap_2.
  - exfalso. apply Ha. rewrite <- Hf. by apply list_elem_of_fmap_2.
Qed.

Lemma filter_creates_deletes (P : call -> Prop) `{forall c, Decision (P c)} ts :
  (forall t, ~ P (CreateARecord t)) -> filter P (CreateARecord <$> ts) = [].
Proof.
  intros HP. induction ts as [|t ts IH]; [done|]. simpl.
  rewrite filter_cons_False by apply HP. exact IH.
Qed.

End CloudflareFacts.

(** ** The provider's store under the calls of a pass *)
Module StoreFacts.
Import Cloudflare Store.

Lemma apply_deletes fresh name R n ids :
  foldl (apply_call fresh name) (R, n) (DeleteARecord <$> ids)
  = (filter (fun r => DNSRecord.ID r ∉ ids) R, n).
Proof.
  revert R. induction ids as [|i ids IH]; intros R; simpl.
  - f_equal. induction R as [|r R IHR]; [done|].
    rewrite filter_cons_True by apply not_elem_of_nil. by rewrite <- IHR.
  - rewrite IH. f_equal. rewrite list_filter_filter.
    apply list_filter_iff. intros r. rewrite not_elem_of_cons. tauto.
Qed.

Lemma apply_creates_contents fresh name X n ts :
  DNSRecord.Content <$> (foldl (apply_call fresh name) (X, n)
                           (CreateARecord <$> ts)).1
  = (DNSRecord.Content <$> X) ++ ts.
Proof.
  revert X n. induction ts as [|t ts IH]; intros X n; simpl.
  - by rewrite app_nil_r.
  - rewrite IH, fmap_app. simpl. by rewrite <- app_assoc.
Qed.

Lemma apply_calls_app fresh name R cs1 cs2 :
  foldl (apply_call fresh name) (R, 0) (cs1 ++ cs2)
  = foldl (apply_call fresh name) (foldl (apply_call fresh name) (R, 0) cs1) cs2.
Proof. apply foldl_app. Qed.

End StoreFacts.

(** ** Diff and convergence *)
Module ConvergenceFacts.
Import Cloudflare Store CloudflareFacts StoreFacts.

Lemma filter_none {A} (P : A -> Prop) `{forall x, Decision (P x)} (l : list A) :
  (forall x, x ∈ l -> ~ P x) -> filter P l = [].
Proof.
  induction l as [|x l IH]; intros Hl; [done|].
  rewrite filter_cons_False by (apply Hl; set_solver).
  apply IH. intros y Hy. apply Hl. set_solver.
Qed.

(** The calls of a pass over records of pairwise distinct contents. *)
Lemma sync_calls_split p R D :
  list_records p = inr R ->
  NoDup (DNSRecord.Content <$> R) ->
  exists ids,
    sync_calls p D = (DeleteARecord <$> ids)
      ++ (CreateARecord <$> filter (fun t => t ∉ DNSRecord.Content <$> R) D)
    /\ ids ≡ₚ DNSRecord.ID <$> filter (fun r => DNSRecord.Content r ∉ D) R.
Proof.
  intros Hl Hnd. rewrite (sync_calls_shape _ _ _ Hl). destruct D as [|t D].
  - exists (DNSRecord.ID <$> R). rewrite filter_nil, filter_not_in_nil.
    rewrite app_nil_r, <- list_fmap_compose. done.
  - exists (snd <$> filter (fun e => e.1 ∉ targetSet_of (t :: D))
                     (map_to_list (currentTargets_of R))).
    split.
    + rewrite creates_eq, <- list_fmap_compose. done.
    + pose proof (stale_deletes_distinct R (t :: D) Hnd) as Hp.
      apply (fmap_Permutation (fun c => match c with
                                        | DeleteARecord i => i
                                        | CreateARecord _ => ""%string
                                        end)) in Hp.
      rewrite <- !list_fmap_compose in Hp. exact Hp.
Qed.

(** A store whose content set is [D] needs no further call. *)
Lemma sync_calls_converged R D :
  (forall a, a ∈ DNSRecord.Content <$> R <-> a ∈ D) ->
  sync_calls (observed R) D = [].
Proof.
  intros Hset. rewrite (sync_calls_shape (observed R) R D eq_refl).
  destruct D as [|t D].
  - destruct R as [|r R]; [done|]. exfalso.
    apply (not_elem_of_nil (DNSRecord.Content r)), Hset. set_solver.
  - rewrite filter_none, filter_none; [done| |].
    + intros x Hx Hnone. apply currentTargets_of_None in Hnone.
      apply Hnone, Hset, Hx.
    + intros [k v] Hkv. simpl. rewrite targetSet_of_spec.
      apply elem_of_map_to_list, currentTargets_of_Some in Hkv
        as (r & Hr & <- & _).
      intros Hnot. apply Hnot, Hset, list_elem_of_fmap_2, Hr.
Qed.

End ConvergenceFacts.

(** ** Resolver, eligibility and event decoding *)
Module NomadFacts.
Import Nomad.

Lemma add_alloc_keyed c m alloc : keyed m -> keyed (add_alloc c m alloc).
Proof.
  intros Hm. unfold add_alloc. case_decide; [done|].
  destruct (Info c (NodeID alloc)) as [|node]; [done|].
  intros k v. rewrite lookup_insert. case_decide as Hk.
  - intros [= <-]. simpl. done.
  - apply Hm.
Qed.

Lemma foldl_add_alloc_keyed c allocs m :
  keyed m -> keyed (foldl (add_alloc c) m allocs).
Proof.
  revert m. induction allocs as [|a allocs IH]; intros m Hm; simpl; [done|].
  apply IH, add_alloc_keyed, Hm.
Qed.

Lemma ids_of_values (l : list (string * NodeInfo.t)) :
  (forall k v, (k, v) ∈ l -> NodeInfo.ID v = k) ->
  NodeInfo.ID <$> l.*2 = l.*1.
Proof.
  induction l as [|[k v] l IH]; intros Hl; [done|]. csimpl.
  rewrite (Hl k v) by set_solver. f_equal. apply IH.
  intros k' v' Hkv. apply Hl. set_solver.
Qed.

End NomadFacts.

Module ControllerFacts.
Import Controller.

Lemma extract_ips_spec nodes ips :
  extract_ips nodes ips
  = ips ++ (NodeInfo.PublicIPAddress
              <$> filter (fun n => NodeInfo.Status n = "ready"
                                   /\ NodeInfo.PublicIPAddress n <> "") nodes).
Proof.
  revert ips. induction nodes as [|n nodes IH]; intros ips; simpl.
  - by rewrite app_nil_r.
  - rewrite filter_cons. case_decide; rewrite IH; [|done].
    csimpl. by rewrite <- app_assoc.
Qed.

Lemma main_loop_ready s ts : ready (main_loop s ts).1 = ready s.
Proof.
  revert s. induction ts as [|[] ts IH]; intros s; simpl; try done;
    destruct sync_result; rewrite IH; done.
Qed.

End ControllerFacts.

(* ================================================================== *)
(** * The claims *)

Import Cloudflare CloudflareFacts StoreFacts ConvergenceFacts Examples.

(** C1 (amended). When the listed records have pairwise distinct contents,
    a pass issues one delete per record whose content is not desired, then
    one create per desired address that no record carries, and nothing
    else: records whose content is desired are neither deleted nor
    recreated. (Deletes come in the map's iteration order, hence up to
    permutation.) *)
Theorem sync_diff_distinct_contents (p : provider) (R : list DNSRecord.t)
    (D : list string) :
  list_records p = inr R ->
  NoDup (DNSRecord.Content <$> R) ->
  exists deletes,
    sync_calls p D = deletes
      ++ (CreateARecord <$> filter (fun t => t ∉ DNSRecord.Content <$> R) D)
    /\ deletes ≡ₚ (fun r => DeleteARecord (DNSRecord.ID r))
                   <$> filter (fun r => DNSRecord.Content r ∉ D) R.
Proof.
  intros Hl Hnd. destruct (sync_calls_split p R D Hl Hnd) as (ids & Heq & Hp).
  exists (DeleteARecord <$> ids). split; [exact Heq|].
  rewrite Hp, <- list_fmap_compose. done.
Qed.

Lemma sync_diff_distinct_contents_witness :
  exists deletes,
    sync_calls (observed [recA; recB]) ["1.1.1.1"; "3.3.3.3"] = deletes
      ++ (CreateARecord <$> filter (fun t => t ∉ DNSRecord.Content <$> [recA; recB])
                             ["1.1.1.1"; "3.3.3.3"])
    /\ deletes ≡ₚ (fun r => DeleteARecord (DNSRecord.ID r))
          <$> filter (fun r => DNSRecord.Content r ∉ ["1.1.1.1"; "3.3.3.3"])
                [recA; recB].
Proof.
  apply (sync_diff_distinct_contents (observed [recA; recB])); [reflexivity|].
  vm_compute. apply NoDup_cons; split; [set_solver|apply NoDup_singleton].
Defined.

(** C1, as stated, fails: two records [B] and [C] carry the same stale
    content ["2.2.2.2"]; the claim asks for a delete of each, the pass
    deletes only [C], the id the content-to-id map kept. *)
Lemma sync_diff_duplicate_contents_counterexample :
  ~ exists deletes,
      sync_calls (observed [recB; recC]) ["1.1.1.1"] = deletes
        ++ (CreateARecord <$> filter (fun t => t ∉ DNSRecord.Content <$> [recB; recC])
                               ["1.1.1.1"])
      /\ deletes ≡ₚ (fun r => DeleteARecord (DNSRecord.ID r))
            <$> filter (fun r => DNSRecord.Content r ∉ ["1.1.1.1"]) [recB; recC].
Proof.
  intros (deletes & Heq & Hp). vm_compute in Heq, Hp.
  change [DeleteARecord "C"; CreateARecord "1.1.1.1"]
    with ([DeleteARecord "C"] ++ [CreateARecord "1.1.1.1"]) in Heq.
  apply app_inv_tail in Heq. subst deletes.
  apply Permutation_length in Hp. discriminate.
Qed.

(** C2. With an empty desired set, a pass whose listing returned [R] deletes
    every record of [R], one call each and in order, creates nothing, and
    reports success, whatever the contents of [R]. *)
Theorem sync_empty_desired_deletes_all (p : provider) (R : list DNSRecord.t) :
  list_records p = inr R ->
  sync_calls p [] = (fun r => DeleteARecord (DNSRecord.ID r)) <$> R
  /\ (SyncARecords p []).2 = None.
Proof.
  intros Hl. split.
  - exact (sync_calls_shape p R [] Hl).
  - unfold SyncARecords. rewrite (getARecords_inr p R Hl). reflexivity.
Qed.

Lemma sync_empty_desired_deletes_all_witness :
  sync_calls (observed [recA; recB; recC]) []
    = (fun r => DeleteARecord (DNSRecord.ID r)) <$> [recA; recB; recC]
  /\ (SyncARecords (observed [recA; recB; recC]) []).2 = None.
Proof. apply (sync_empty_desired_deletes_all _ [recA; recB; recC]). reflexivity. Defined.

(** C4. Per-record failures never stop a pass: it attempts the very calls
    it would attempt if every call succeeded, logs each call with its own
    outcome, and returns success exactly when the listing succeeded. *)
Theorem sync_error_tolerance (p : provider) (D : list string) :
  sync_calls p D = sync_calls (mkProvider (list_records p) (fun _ => None)) D
  /\ Forall (entry_faithful p) (SyncARecords p D).1
  /\ ((SyncARecords p D).2 = None <-> exists R, list_records p = inr R).
Proof.
  split; [|split; [apply SyncARecords_faithful|]].
  - destruct (list_records p) as [err|R] eqn:Hl.
    + rewrite (sync_calls_listing_failed p D err Hl).
      symmetry. by apply (sync_calls_listing_failed _ D err).
    + rewrite (sync_calls_shape p R D Hl). symmetry.
      by apply (sync_calls_shape _ R D).
  - unfold SyncARecords, getARecords.
    destruct (list_records p) as [err|R]; cbn [snd].
    + split; [discriminate|]. intros [R HR]. discriminate.
    + split; [eauto|]. intros _. destruct D; reflexivity.
Qed.

(** C7 (amended). When the listed records have pairwise distinct contents
    (and, as the provider guarantees, distinct ids), applying the calls of a
    pass to them yields a store whose content set is the desired set, and a
    second pass on that store issues no call. *)
Theorem converge_roundtrip_distinct (fresh : nat -> string) (name : string)
    (R : list DNSRecord.t) (D : list string) :
  NoDup (DNSRecord.Content <$> R) ->
  NoDup (DNSRecord.ID <$> R) ->
  let R' := Store.apply_calls fresh name R (sync_calls (observed R) D) in
  (forall a, a ∈ DNSRecord.Content <$> R' <-> a ∈ D)
  /\ sync_calls (observed R') D = [].
Proof.
  intros Hnd Hids R'.
  destruct (sync_calls_split (observed R) R D eq_refl Hnd) as (ids & Heq & Hp).
  assert (HR' : DNSRecord.Content <$> R'
    = (DNSRecord.Content <$> filter (fun r => DNSRecord.ID r ∉ ids) R)
      ++ filter (fun t => t ∉ DNSRecord.Content <$> R) D).
  { unfold R', Store.apply_calls. rewrite Heq, foldl_app, apply_deletes.
    apply apply_creates_contents. }
  assert (Hset : forall a, a ∈ DNSRecord.Content <$> R' <-> a ∈ D).
  { intros a. rewrite HR', elem_of_app, list_elem_of_filter, list_elem_of_fmap.
    split.
    - intros [(r & -> & Hr) | [_ HaD]]; [|exact HaD].
      apply list_elem_of_filter in Hr as [Hid Hr].
      destruct (decide (DNSRecord.Content r ∈ D)) as [|Hn]; [done|].
      exfalso. apply Hid. rewrite Hp. apply list_elem_of_fmap_2.
      by apply list_elem_of_filter.
    - intros HaD. destruct (decide (a ∈ DNSRecord.Content <$> R)) as [Hin|Hnin].
      + left. apply list_elem_of_fmap in Hin as (r & -> & Hr).
        exists r. split; [done|]. apply list_elem_of_filter. split; [|done].
        intros Hid. rewrite Hp in Hid.
        apply list_elem_of_fmap in Hid as (r' & Hrr' & Hr').
        apply list_elem_of_filter in Hr' as [Hc Hr'].
        rewrite (NoDup_fmap_same DNSRecord.ID R r r' Hids Hr Hr' Hrr') in HaD.
        contradiction.
      + right. done. }
  split; [exact Hset|]. apply sync_calls_converged, Hset.
Qed.

Lemma converge_roundtrip_distinct_witness :
  (forall a, a ∈ DNSRecord.Content <$> Store.apply_calls fresh_id "h" [recA; recB]
                 (sync_calls (observed [recA; recB]) ["1.1.1.1"; "3.3.3.3"])
             <-> a ∈ ["1.1.1.1"; "3.3.3.3"])
  /\ sync_calls (observed (Store.apply_calls fresh_id "h" [recA; recB]
                 (sync_calls (observed [recA; recB]) ["1.1.1.1"; "3.3.3.3"])))
       ["1.1.1.1"; "3.3.3.3"] = [].
Proof.
  apply (converge_roundtrip_distinct fresh_id "h" [recA; recB]
           ["1.1.1.1"; "3.3.3.3"]);
    vm_compute; (apply NoDup_cons; split; [set_solver|apply NoDup_singleton]).
Defined.

(** C7, as stated, fails on duplicate contents: with [B] and [C] both on the
    stale ["2.2.2.2"] and ["1.1.1.1"] desired, the store after the pass
    still serves ["2.2.2.2"] (record [B]) and a second pass deletes [B]. *)
Lemma converge_roundtrip_duplicate_counterexample :
  let R' := Store.apply_calls fresh_id "h" [recB; recC]
              (sync_calls (observed [recB; recC]) ["1.1.1.1"]) in
  "2.2.2.2" ∈ DNSRecord.Content <$> R'
  /\ ("2.2.2.2" ∉ ["1.1.1.1"])
  /\ sync_calls (observed R') ["1.1.1.1"] = [DeleteARecord "B"].
Proof.
  vm_compute. split; [|split].
  - set_solver.
  - set_solver.
  - reflexivity.
Qed.

(** C10. When several listed records share a content that is not desired
    (and the desired set is not empty), the pass deletes exactly one of
    them: the last one listed, whose id the content-to-id map kept; the
    others are left in place. *)
Theorem sync_duplicate_content_single_delete (p : provider)
    (R1 : list DNSRecord.t) (r r0 : DNSRecord.t) (R2 : list DNSRecord.t)
    (D : list string) :
  list_records p = inr (R1 ++ r :: R2) ->
  D <> [] ->
  DNSRecord.Content r ∉ D ->
  r0 ∈ R1 ->
  DNSRecord.Content r0 = DNSRecord.Content r ->
  (forall r', r' ∈ R2 -> DNSRecord.Content r' <> DNSRecord.Content r) ->
  NoDup (DNSRecord.ID <$> R1 ++ r :: R2) ->
  filter (fun c => c ∈ (fun r' => DeleteARecord (DNSRecord.ID r'))
                        <$> filter (fun r' => DNSRecord.Content r' = DNSRecord.Content r)
                              (R1 ++ r :: R2))
    (sync_calls p D)
  = [DeleteARecord (DNSRecord.ID r)].
Proof.
  set (R := R1 ++ r :: R2).
  intros Hl HD Hnot _ _ Hlast Hids.
  rewrite (sync_calls_shape p R D Hl). destruct D as [|t D]; [congruence|].
  rewrite filter_app, filter_creates_deletes, app_nil_r.
  2:{ intros t' Ht'. apply list_elem_of_fmap in Ht' as (r' & Hc & _).
      discriminate. }
  apply Permutation_length_1_inv. symmetry.
  pose proof (currentTargets_of_last R1 r R2 Hlast) as Hm. fold R in Hm.
  rewrite <- (map_to_list_delete _ _ _ Hm).
  rewrite filter_cons_True.
  2:{ simpl. rewrite targetSet_of_spec. exact Hnot. }
  csimpl. rewrite filter_cons_True.
  2:{ apply (list_elem_of_fmap_2' _ _ r); [|reflexivity].
      apply list_elem_of_filter. split; [done|]. unfold R. set_solver. }
  rewrite filter_none; [done|].
  intros c Hc HP.
  apply list_elem_of_fmap in Hc as ([k v] & -> & Hkv).
  apply list_elem_of_filter in Hkv as [_ Hkv].
  apply elem_of_map_to_list, lookup_delete_Some in Hkv as [Hk Hkv].
  apply currentTargets_of_Some in Hkv as (r'' & Hr'' & Hc'' & Hi'').
  apply list_elem_of_fmap in HP as (r' & Hd & Hr').
  apply list_elem_of_filter in Hr' as [Hc' Hr']. simpl in Hd.
  injection Hd as Hd.
  assert (r'' = r') as ->.
  { apply (NoDup_fmap_same DNSRecord.ID R); auto. congruence. }
  apply Hk. congruence.
Qed.

Lemma sync_duplicate_content_single_delete_witness :
  filter (fun c => c ∈ (fun r' => DeleteARecord (DNSRecord.ID r'))
                        <$> filter (fun r' => DNSRecord.Content r' = DNSRecord.Content recC)
                              ([recB] ++ recC :: []))
    (sync_calls (observed ([recB] ++ recC :: [])) ["1.1.1.1"])
  = [DeleteARecord (DNSRecord.ID recC)].
Proof.
  apply (sync_duplicate_content_single_delete
           (observed ([recB] ++ recC :: [])) [recB] recC recB []).
  - reflexivity.
  - discriminate.
  - vm_compute. set_solver.
  - set_solver.
  - reflexivity.
  - intros r' Hr'. apply not_elem_of_nil in Hr' as [].
  - vm_compute. apply NoDup_cons; split; [set_solver|apply NoDup_singleton].
Defined.

(** C3. The desired address list [syncDNSRecords] hands to [SyncARecords]
    is the public address of each resolved node whose status is ["ready"]
    and whose address is not empty, in order; a node with another status
    or an empty address contributes nothing. *)
Theorem desired_set_eligibility (nodes : list NodeInfo.t) :
  Controller.extract_ips nodes []
    = NodeInfo.PublicIPAddress
        <$> filter (fun n => NodeInfo.Status n = "ready"
                             /\ NodeInfo.PublicIPAddress n <> "") nodes
  /\ (forall a, a ∈ Controller.extract_ips nodes [] <->
        exists n, n ∈ nodes /\ NodeInfo.Status n = "ready"
                  /\ NodeInfo.PublicIPAddress n <> ""
                  /\ NodeInfo.PublicIPAddress n = a)
  /\ (forall nc job p,
        Nomad.GetTraefikNodes nc job = inr nodes ->
        Controller.syncDNSRecords nc job p
          = SyncARecords p (Controller.extract_ips nodes [])).
Proof.
  rewrite ControllerFacts.extract_ips_spec, app_nil_l. split; [done|]. split.
  - intros a. rewrite list_elem_of_fmap. setoid_rewrite list_elem_of_filter.
    naive_solver.
  - intros nc job p Hn. unfold Controller.syncDNSRecords. rewrite Hn.
    by rewrite ControllerFacts.extract_ips_spec, app_nil_l.
Qed.

Lemma desired_set_eligibility_witness :
  Controller.extract_ips
    [NodeInfo.mk "n1" "one" "1.2.3.4" "down"; NodeInfo.mk "n2" "two" "" "ready";
     NodeInfo.mk "n3" "three" "5.6.7.8" "ready"] [] = ["5.6.7.8"].
Proof.
  rewrite (proj1 (desired_set_eligibility
    [NodeInfo.mk "n1" "one" "1.2.3.4" "down"; NodeInfo.mk "n2" "two" "" "ready";
     NodeInfo.mk "n3" "three" "5.6.7.8" "ready"])).
  vm_compute. reflexivity.
Defined.

(** C5 (amended). [Run] marks the process ready exactly when the startup
    pass succeeded; the passes of the main loop never change readiness, so
    a process whose startup pass failed stays not ready. *)
Theorem run_ready_iff_initial_sync (initial : option string)
    (ts : list Controller.trigger) :
  Controller.ready (Controller.Run initial ts).1 = bool_decide (initial = None).
Proof.
  unfold Controller.Run. rewrite ControllerFacts.main_loop_ready.
  destruct initial; reflexivity.
Qed.

(** C5, as stated, fails: the startup pass fails, a periodic pass then
    succeeds, and the process is still not ready. *)
Lemma run_ready_later_pass_counterexample :
  Controller.ready
    (Controller.Run (Some "Failed to get allocations")
       [Controller.TickerFired None]).1 = false.
Proof. reflexivity. Qed.

(** C6. [processEvent] forwards nothing for an event type outside
    {AllocationUpdated, NodeUpdated, JobRegistered, JobDeregistered}; for
    an allowed type it forwards an event of that type whose [NodeID]
    ([JobID]) is the payload's field when that field is a string, and empty
    when the field is absent, not a string, or the payload is nil. *)
Theorem processEvent_filter_decode (event : Nomad.Event) :
  (Nomad.Type_ event ∉
     ["AllocationUpdated"; "NodeUpdated"; "JobRegistered"; "JobDeregistered"] ->
   Nomad.processEvent event = None)
  /\ (Nomad.Type_ event ∈
        ["AllocationUpdated"; "NodeUpdated"; "JobRegistered"; "JobDeregistered"] ->
      exists ce, Nomad.processEvent event = Some ce
        /\ Nomad.ce_Type ce = Nomad.Type_ event
        /\ Nomad.ce_NodeID ce
           = match Nomad.Payload event ≫= (fun pl => pl !! "NodeID") with
             | Some (Nomad.VString s) => s
             | _ => ""
             end
        /\ Nomad.ce_JobID ce
           = match Nomad.Payload event ≫= (fun pl => pl !! "JobID") with
             | Some (Nomad.VString s) => s
             | _ => ""
             end).
Proof.
  unfold Nomad.processEvent, Nomad.known_types. split.
  - intros Hn. by rewrite decide_False.
  - intros Hin. rewrite decide_True by exact Hin.
    eexists. split; [reflexivity|].
    destruct (Nomad.Payload event) as [payload|]; simpl; [|done].
    unfold Nomad.string_field.
    destruct (payload !! "NodeID") as [[]|], (payload !! "JobID") as [[]|];
      simpl; done.
Qed.

Lemma processEvent_filter_decode_witness :
  Nomad.processEvent
    (Nomad.mkEvent "Node" "SomeOtherEvent" "k" 7 None) = None
  /\ exists ce,
       Nomad.processEvent
         (Nomad.mkEvent "Allocation" "AllocationUpdated" "k" 7
            (Some {[ "NodeID" := Nomad.VNumber 42 ]})) = Some ce
       /\ Nomad.ce_Type ce = "AllocationUpdated"
       /\ Nomad.ce_NodeID ce = "" /\ Nomad.ce_JobID ce = "".
Proof.
  split.
  - apply (proj1 (processEvent_filter_decode
                    (Nomad.mkEvent "Node" "SomeOtherEvent" "k" 7 None))).
    vm_compute. set_solver.
  - destruct (proj2 (processEvent_filter_decode
                (Nomad.mkEvent "Allocation" "AllocationUpdated" "k" 7
                   (Some {[ "NodeID" := Nomad.VNumber 42 ]}))))
      as (ce & Hce & Ht & Hn & Hj).
    + simpl. set_solver.
    + exists ce. split; [exact Hce|]. split; [exact Ht|].
      rewrite Hn, Hj. vm_compute. split; reflexivity.
Defined.

(** C9. The resolver returns each node id at most once, however many
    running allocations of the job sit on that node. *)
Theorem GetTraefikNodes_dedup (nc : Nomad.api) (TraefikJobName : string)
    (nodes : list NodeInfo.t) :
  Nomad.GetTraefikNodes nc TraefikJobName = inr nodes ->
  NoDup (NodeInfo.ID <$> nodes).
Proof.
  unfold Nomad.GetTraefikNodes.
  destruct (Nomad.Allocations nc TraefikJobName) as [|allocs]; [discriminate|].
  intros [= <-].
  set (m := foldl (Nomad.add_alloc nc) ∅ allocs).
  assert (Hk : Nomad.keyed m).
  { apply NomadFacts.foldl_add_alloc_keyed. intros k v. by rewrite lookup_empty. }
  rewrite NomadFacts.ids_of_values; [apply NoDup_fst_map_to_list|].
  intros k v Hkv. apply Hk, elem_of_map_to_list, Hkv.
Qed.

Lemma GetTraefikNodes_dedup_witness :
  NoDup (NodeInfo.ID <$> [NodeInfo.mk "n1" "n1" "10.0.0.1" "ready"]).
Proof.
  apply (GetTraefikNodes_dedup example_nomad "traefik").
  vm_compute. reflexivity.
Defined.

(** C8 (amended). [LoadConfig] returns an error, and no configuration,
    exactly when the Cloudflare token, the zone id or the Nomad token is
    unset; the job name and the record name are not required. (The second
    [LoadConfig] of the repository also requires [DNS_RECORD_NAME]; its job
    name defaults to ["ingress"], so it never fails on the job name.) *)
Theorem LoadConfig_required_fields (e : env) :
  ((exists err, Config.LoadConfig e = inl err) <->
     e "CLOUDFLARE_API_TOKEN" = "" \/ e "CLOUDFLARE_ZONE_ID" = ""
     \/ e "NOMAD_TOKEN" = "")
  /\ ((exists err, ConfigV2.LoadConfig e = inl err) <->
     e "CLOUDFLARE_API_TOKEN" = "" \/ e "CLOUDFLARE_ZONE_ID" = ""
     \/ e "DNS_RECORD_NAME" = "" \/ e "NOMAD_TOKEN" = "").
Proof.
  assert (Hjob : Config.getEnvOrDefault e "TRAEFIK_JOB_NAME" "ingress" <> "").
  { unfold Config.getEnvOrDefault. case_decide; [done|discriminate]. }
  unfold Config.LoadConfig, ConfigV2.LoadConfig. simpl.
  split; repeat case_decide; simpl in *; split;
    try (intros [err Herr]; discriminate); try (intros; eexists; reflexivity);
    try tauto; intros [? [=]].
Qed.

(** C8, as stated, fails: with every variable set but [TRAEFIK_JOB_NAME],
    both versions of [LoadConfig] return a configuration and no error. *)
Lemma LoadConfig_missing_job_name_counterexample :
  let e : env := fun k => if decide (k = "TRAEFIK_JOB_NAME") then "" else "set" in
  e "TRAEFIK_JOB_NAME" = ""
  /\ (exists cfg, Config.LoadConfig e = inr cfg)
  /\ (exists cfg, ConfigV2.LoadConfig e = inr cfg).
Proof.
  simpl. split; [reflexivity|]. split; eexists; vm_compute; reflexivity.
Qed.

(** * Further properties *)

(** ** Helpers on the calls of a pass *)
Module PassFacts.
Import Cloudflare CloudflareFacts StoreFacts ConvergenceFacts.

Lemma filter_all {A} (P : A -> Prop) `{forall x, Decision (P x)} (l : list A) :
  (forall x, x ∈ l -> P x) -> filter P l = l.
Proof.
  induction l as [|x l IH]; intros Hl; [done|].
  rewrite filter_cons_True by (apply Hl; set_solver).
  f_equal. apply IH. intros y Hy. apply Hl. set_solver.
Qed.

(** The calls of a pass whose listing returned [R]: deletes of ids of
    listed records whose content is not desired, then the creates. *)
Lemma sync_calls_parts p R D :
  list_records p = inr R ->
  exists ids,
    sync_calls p D = (DeleteARecord <$> ids)
      ++ (CreateARecord <$> filter (fun t => t ∉ DNSRecord.Content <$> R) D)
    /\ forall id, id ∈ ids ->
         exists r, r ∈ R /\ DNSRecord.ID r = id /\ DNSRecord.Content r ∉ D.
Proof.
  intros Hl. rewrite (sync_calls_shape _ _ _ Hl). destruct D as [|t D].
  - exists (DNSRecord.ID <$> R). split.
    + rewrite filter_nil, app_nil_r, <- list_fmap_compose. done.
    + intros id Hid. apply list_elem_of_fmap in Hid as (r & -> & Hr).
      exists r. split; [done|]. split; [done|]. apply not_elem_of_nil.
  - exists (snd <$> filter (fun e => e.1 ∉ targetSet_of (t :: D))
                     (map_to_list (currentTargets_of R))).
    split.
    + rewrite creates_eq, <- list_fmap_compose. done.
    + intros id Hid. apply list_elem_of_fmap in Hid as ([k v] & Hv & Hkv).
      simpl in Hv. subst v.
      apply list_elem_of_filter in Hkv as [Hk Hkv]. simpl in Hk.
      apply elem_of_map_to_list, currentTargets_of_Some in Hkv
        as (r & Hr & Hc & Hi).
      exists r. split; [done|]. split; [done|].
      rewrite Hc. rewrite targetSet_of_spec in Hk. exact Hk.
Qed.

Lemma filter_create_eq (t : string) (l : list string) :
  filter (fun c => c = CreateARecord t) (CreateARecord <$> l)
  = CreateARecord <$> filter (fun x => x = t) l.
Proof.
  induction l as [|x l IH]; [done|]. csimpl. rewrite !filter_cons.
  destruct (decide (x = t)) as [->|Hx].
  - rewrite !decide_True by done. csimpl. by rewrite IH.
  - rewrite !decide_False by congruence. exact IH.
Qed.

End PassFacts.

Import PassFacts.

(** ** [SyncARecords] *)

(** X1. Every pass issues all its deletes before all its creates; each
    delete names the id of a listed record whose content is not desired,
    and each create a desired address that no listed record carries. A
    pass whose listing failed issues no call. *)
Theorem sync_calls_deletes_then_creates (p : provider) (D : list string) :
  exists ids ts,
    sync_calls p D = (DeleteARecord <$> ids) ++ (CreateARecord <$> ts)
    /\ (forall id, id ∈ ids -> exists R r, list_records p = inr R
          /\ r ∈ R /\ DNSRecord.ID r = id /\ DNSRecord.Content r ∉ D)
    /\ (forall t, t ∈ ts -> exists R, list_records p = inr R
          /\ t ∈ D /\ t ∉ DNSRecord.Content <$> R).
Proof.
  destruct (list_records p) as [err|R] eqn:Hl.
  - exists [], []. rewrite (sync_calls_listing_failed p D err Hl).
    split; [done|]. split; intros ? Hin; by apply not_elem_of_nil in Hin.
  - destruct (sync_calls_parts p R D Hl) as (ids & Hcalls & Hids).
    exists ids, (filter (fun t => t ∉ DNSRecord.Content <$> R) D).
    split; [exact Hcalls|]. split.
    + intros id Hid. destruct (Hids id Hid) as (r & Hr & Hi & Hc).
      exists R, r. done.
    + intros t Ht. apply list_elem_of_filter in Ht as [Hn Ht].
      exists R. done.
Qed.

(** X2. When the provider lists no record, a pass issues exactly one
    create per desired address, in the order of the desired list, and no
    delete. *)
Theorem sync_no_records_creates_all (p : provider) (D : list string) :
  list_records p = inr [] -> sync_calls p D = CreateARecord <$> D.
Proof.
  intros Hl. destruct (sync_calls_parts p [] D Hl) as (ids & Hcalls & Hids).
  rewrite Hcalls. destruct ids as [|id ids].
  - rewrite filter_all; [done|]. intros x _. apply not_elem_of_nil.
  - exfalso. destruct (Hids id) as (r & Hr & _); [set_solver|].
    by apply not_elem_of_nil in Hr.
Qed.

Lemma sync_no_records_creates_all_witness :
  sync_calls (observed []) ["1.1.1.1"; "2.2.2.2"; "1.1.1.1"]
  = CreateARecord <$> ["1.1.1.1"; "2.2.2.2"; "1.1.1.1"].
Proof. apply sync_no_records_creates_all. reflexivity. Defined.

(** X3. A desired address that no listed record carries is created once
    per occurrence in the desired list: a repeated address yields repeated
    creates. *)
Theorem sync_create_per_occurrence (p : provider) (R : list DNSRecord.t)
    (D : list string) (t : string) :
  list_records p = inr R ->
  t ∉ DNSRecord.Content <$> R ->
  length (filter (fun c => c = CreateARecord t) (sync_calls p D))
  = length (filter (fun x => x = t) D).
Proof.
  intros Hl Ht. destruct (sync_calls_parts p R D Hl) as (ids & Hcalls & _).
  rewrite Hcalls, filter_app, length_app.
  rewrite (filter_none (fun c => c = CreateARecord t) (DeleteARecord <$> ids)).
  2:{ intros c Hc. apply list_elem_of_fmap in Hc as (i & -> & _). discriminate. }
  rewrite filter_create_eq, length_fmap, list_filter_filter. simpl.
  f_equal. apply list_filter_iff. intros x. split; [tauto|].
  intros ->. tauto.
Qed.

Lemma sync_create_per_occurrence_witness :
  length (filter (fun c => c = CreateARecord "3.3.3.3")
            (sync_calls (observed [recA]) ["3.3.3.3"; "1.1.1.1"; "3.3.3.3"]))
  = length (filter (fun x => x = "3.3.3.3") ["3.3.3.3"; "1.1.1.1"; "3.3.3.3"]).
Proof.
  apply (sync_create_per_occurrence (observed [recA]) [recA]).
  - reflexivity.
  - vm_compute. set_solver.
Defined.

(** X4. With no desired address, the calls of a pass remove every listed
    record from the provider's store, records sharing a content included. *)
Theorem sync_empty_desired_empties_store (fresh : nat -> string)
    (name : string) (R : list DNSRecord.t) :
  Store.apply_calls fresh name R (sync_calls (observed R) []) = [].
Proof.
  rewrite (sync_calls_shape (observed R) R [] eq_refl).
  unfold Store.apply_calls.
  replace ((fun r => DeleteARecord (DNSRecord.ID r)) <$> R)
    with (DeleteARecord <$> (DNSRecord.ID <$> R))
    by (rewrite <- list_fmap_compose; done).
  rewrite apply_deletes. simpl. apply filter_none.
  intros r Hr Hn. apply Hn. by apply list_elem_of_fmap_2.
Qed.

(** X5. When the listed records have pairwise distinct ids, every desired
    address is served by the store after the calls of a pass, even when
    several records share a content. *)
Theorem sync_desired_present_after_pass (fresh : nat -> string)
    (name : string) (R : list DNSRecord.t) (D : list string) (t : string) :
  NoDup (DNSRecord.ID <$> R) ->
  t ∈ D ->
  t ∈ DNSRecord.Content <$> Store.apply_calls fresh name R
                              (sync_calls (observed R) D).
Proof.
  intros Hnd Ht.
  destruct (sync_calls_parts (observed R) R D eq_refl) as (ids & Hcalls & Hids).
  unfold Store.apply_calls. rewrite Hcalls, apply_calls_app, apply_deletes.
  rewrite apply_creates_contents, elem_of_app.
  destruct (decide (t ∈ DNSRecord.Content <$> R)) as [Hin|Hin].
  - left. apply list_elem_of_fmap in Hin as (r & -> & Hr).
    apply list_elem_of_fmap_2, list_elem_of_filter. split; [|done].
    intros Hid. destruct (Hids _ Hid) as (r' & Hr' & Hi & Hc).
    assert (r' = r) as -> by exact (NoDup_fmap_same _ _ _ _ Hnd Hr' Hr Hi).
    exact (Hc Ht).
  - right. by apply list_elem_of_filter.
Qed.

Lemma sync_desired_present_after_pass_witness :
  "2.2.2.2" ∈ DNSRecord.Content <$> Store.apply_calls fresh_id "h"
                [recA; recB; recC] (sync_calls (observed [recA; recB; recC])
                                      ["2.2.2.2"; "3.3.3.3"]).
Proof.
  apply (sync_desired_present_after_pass fresh_id "h" [recA; recB; recC]
           ["2.2.2.2"; "3.3.3.3"]).
  - vm_compute. repeat (apply NoDup_cons; split; [set_solver|]).
    apply NoDup_nil_2.
  - set_solver.
Defined.

(** ** Helpers on the resolver, the watcher, the loop and the config *)
Module MoreFacts.
Import Nomad.

Lemma add_alloc_lookup c m alloc k v :
  add_alloc c m alloc !! k = Some v ->
  m !! k = Some v
  \/ (ClientStatus alloc = "running"
      /\ exists node, Info c (NodeID alloc) = inr node
           /\ v = NodeInfo.mk (ID node) (Name node)
                    (index (Attributes node) "unique.network.ip-address")
                    (Status node)).
Proof.
  unfold add_alloc. case_decide as Hs; [auto|].
  destruct (Info c (NodeID alloc)) as [|node] eqn:Hi; [auto|].
  rewrite lookup_insert. case_decide as Hk; [|auto].
  intros [= <-]. right. split.
  - destruct (decide (ClientStatus alloc = "running")); tauto.
  - eauto.
Qed.

Lemma foldl_add_alloc_sound c allocs m k v :
  foldl (add_alloc c) m allocs !! k = Some v ->
  m !! k = Some v
  \/ exists alloc node, alloc ∈ allocs /\ ClientStatus alloc = "running"
       /\ Info c (NodeID alloc) = inr node
       /\ v = NodeInfo.mk (ID node) (Name node)
                (index (Attributes node) "unique.network.ip-address")
                (Status node).
Proof.
  revert m. induction allocs as [|a allocs IH]; intros m H; simpl in H; [auto|].
  destruct (IH _ H) as [H1|(alloc & node & Hin & Hs & Hi & Hv)].
  - destruct (add_alloc_lookup _ _ _ _ _ H1) as [H2|(Hs & node & Hi & Hv)];
      [auto|].
    right. exists a, node. split; [set_solver|]. done.
  - right. exists alloc, node. split; [set_solver|]. done.
Qed.

Lemma foldl_add_alloc_mono c allocs m k :
  is_Some (m !! k) -> is_Some (foldl (add_alloc c) m allocs !! k).
Proof.
  revert m. induction allocs as [|a allocs IH]; intros m H; simpl; [done|].
  apply IH. unfold add_alloc. case_decide; [done|].
  destruct (Info c (NodeID a)); [done|].
  rewrite lookup_insert. case_decide; [eauto|done].
Qed.

Lemma foldl_add_alloc_complete c allocs m alloc node :
  alloc ∈ allocs -> ClientStatus alloc = "running" ->
  Info c (NodeID alloc) = inr node ->
  is_Some (foldl (add_alloc c) m allocs !! ID node).
Proof.
  revert m. induction allocs as [|a allocs IH]; intros m Hin Hs Hi;
    [by apply not_elem_of_nil in Hin|].
  simpl. apply elem_of_cons in Hin as [->|Hin]; [|by apply IH].
  apply foldl_add_alloc_mono. unfold add_alloc.
  rewrite decide_False by tauto. rewrite Hi. rewrite lookup_insert_eq. eauto.
Qed.

Lemma processEvent_Some event ce :
  processEvent event = Some ce ->
  ce_Type ce = Type_ event /\ Type_ event ∈ known_types
  /\ ce_Details ce = event /\ ce_Timestamp ce = int64_of_uint64 (Index event).
Proof.
  unfold processEvent. case_decide as Hk; [|discriminate].
  intros Hce. injection Hce as <-.
  destruct (Payload event) as [payload|]; [|done].
  destruct (string_field payload "NodeID"), (string_field payload "JobID");
    done.
Qed.

Lemma int64_of_uint64_spec (x : N) :
  ((Z.of_N x < 2 ^ 63)%Z -> int64_of_uint64 x = Z.of_N x)
  /\ ((2 ^ 63 <= Z.of_N x < 2 ^ 64)%Z -> int64_of_uint64 x = (Z.of_N x - 2 ^ 64)%Z).
Proof.
  unfold int64_of_uint64. split; intros Hx;
    rewrite Z.mod_small by lia; destruct (Z.ltb_spec (Z.of_N x) (2 ^ 63)); lia.
Qed.

Lemma forward_all_sent events extra sent :
  Watch.forward events
    (replicate (length (omap processEvent events)) true ++ extra) sent
  = (sent ++ omap processEvent events, extra, None).
Proof.
  revert sent. induction events as [|ev events IH]; intros sent; simpl.
  - by rewrite app_nil_r.
  - destruct (processEvent ev) as [pe|]; simpl; rewrite IH; [|done].
    by rewrite <- app_assoc.
Qed.

Lemma watch_loop_recvs ws rest extra sent logged :
  let S := omap processEvent
             (concat (Watch.EventList <$> filter (fun w => Watch.Err w = None) ws)) in
  Watch.watch_loop ((Watch.Recv <$> ws) ++ rest)
    (replicate (length S) true ++ extra) sent logged
  = Watch.watch_loop rest extra (sent ++ S) (logged ++ omap Watch.Err ws).
Proof.
  simpl. revert sent logged. induction ws as [|w ws IH]; intros sent logged; simpl.
  - by rewrite !app_nil_r.
  - rewrite filter_cons. case_decide as Hd; destruct (Watch.Err w) as [err|] eqn:He;
      try congruence; simpl.
    + rewrite omap_app, length_app, replicate_add, <- app_assoc.
      rewrite forward_all_sent, IH. by rewrite app_assoc.
    + rewrite IH. by rewrite <- app_assoc.
Qed.

Lemma forward_outcome events sends sent :
  match Watch.forward events sends sent with
  | (_, sends', None) => exists l, sends = l ++ sends'
  | (_, _, Some Watch.Watching) => True
  | (_, _, Some (Watch.Returned err)) => err = "context canceled" /\ false ∈ sends
  | (_, _, Some Watch.Panicked) => False
  end.
Proof.
  revert sends sent. induction events as [|ev events IH]; intros sends sent; simpl.
  - by exists [].
  - destruct (processEvent ev) as [pe|]; [|apply IH].
    destruct sends as [|[] sends]; [done| |split; [done|set_solver]].
    specialize (IH sends (sent ++ [pe])).
    destruct (Watch.forward events sends (sent ++ [pe])) as [[s1 s2] [[| |]|]];
      try done.
    + destruct IH as [-> IH]. split; [done|set_solver].
    + destruct IH as [l ->]. by exists (true :: l).
Qed.

Lemma watch_loop_status items sends sent logged :
  match (Watch.watch_loop items sends sent logged).2 with
  | Watch.Watching => True
  | Watch.Returned err =>
      err = "context canceled" /\ (Watch.CtxDone ∈ items \/ false ∈ sends)
  | Watch.Panicked => Watch.RecvNil ∈ items
  end.
Proof.
  revert sends sent logged.
  induction items as [|[w| |] items IH]; intros sends sent logged; simpl;
    [done| |set_solver|split; [done|set_solver]].
  destruct (Watch.Err w) as [err|].
  - specialize (IH sends sent (logged ++ [err])).
    destruct (Watch.watch_loop items sends sent (logged ++ [err])) as [[? ?] [| |]];
      simpl in *; [done| |set_solver].
    destruct IH as [-> IH]. split; [done|set_solver].
  - pose proof (forward_outcome (Watch.EventList w) sends sent) as Hf.
    destruct (Watch.forward (Watch.EventList w) sends sent) as [[s1 s2] [st|]].
    + destruct st; simpl; [done| |done].
      destruct Hf as [-> Hf]. split; [done|by right].
    + destruct Hf as [l ->]. specialize (IH s2 s1 logged).
      destruct (Watch.watch_loop items s2 s1 logged) as [[? ?] [| |]];
        simpl in *; [done| |set_solver].
      destruct IH as [-> IH]. split; [done|set_solver].
Qed.

Lemma watch_loop_quiet items sends sent logged :
  Watch.RecvNil ∉ items -> Watch.CtxDone ∉ items -> false ∉ sends ->
  (Watch.watch_loop items sends sent logged).2 = Watch.Watching.
Proof.
  intros Hn Hc Hs. pose proof (watch_loop_status items sends sent logged) as H.
  destruct (Watch.watch_loop items sends sent logged) as [[? ?] [| |]];
    simpl in *; [done| |done].
  destruct H as [_ [H|H]]; done.
Qed.

Lemma forward_Forall (P : ClusterEvent -> Prop) events sends sent :
  (forall ev ce, processEvent ev = Some ce -> P ce) ->
  Forall P sent -> Forall P (Watch.forward events sends sent).1.1.
Proof.
  intros HP. revert sends sent.
  induction events as [|ev events IH]; intros sends sent Hs; simpl; [done|].
  destruct (processEvent ev) as [pe|] eqn:He; [|by apply IH].
  destruct sends as [|[] sends]; simpl; try done.
  apply IH. apply Forall_app. split; [done|]. constructor; [|done].
  exact (HP _ _ He).
Qed.

Lemma watch_loop_Forall (P : ClusterEvent -> Prop) items sends sent logged :
  (forall ev ce, processEvent ev = Some ce -> P ce) ->
  Forall P sent -> Forall P (Watch.watch_loop items sends sent logged).1.1.
Proof.
  intros HP. revert sends sent logged.
  induction items as [|[w| |] items IH]; intros sends sent logged Hs; simpl;
    try done.
  destruct (Watch.Err w); [by apply IH|].
  pose proof (forward_Forall P (Watch.EventList w) sends sent HP Hs) as Hf.
  destruct (Watch.forward (Watch.EventList w) sends sent) as [[s1 s2] [st|]];
    simpl in *; [done|]. by apply IH.
Qed.

Lemma main_loop_failures_logged s ts :
  Forall (fun t => match t with
                   | Controller.NomadEvent _ | Controller.TickerFired _ => True
                   | _ => False
                   end) ts ->
  Controller.main_loop s ts
  = (Controller.mkServer (Controller.ready s)
       (Controller.logged s
        ++ omap (fun t => match t with
                          | Controller.NomadEvent (Some _) => Some "Sync after event failed"
                          | Controller.TickerFired (Some _) => Some "Periodic sync failed"
                          | _ => None
                          end) ts),
     Controller.Looping).
Proof.
  revert s. induction ts as [|t ts IH]; intros s Hts.
  - destruct s. simpl. by rewrite app_nil_r.
  - apply Forall_cons in Hts as [Ht Hts].
    destruct t as [| |[r|]|[r|]]; try done; simpl; rewrite IH by done;
      simpl; by rewrite <- ?app_assoc.
Qed.

Lemma getEnvOrDefault_spec (e : env) key defaultValue :
  Config.getEnvOrDefault e key defaultValue
  = if decide (e key = "") then defaultValue else e key.
Proof. unfold Config.getEnvOrDefault. do 2 case_decide; tauto. Qed.

End MoreFacts.

Import MoreFacts.

(** ** [GetTraefikNodes] *)

(** X6. [GetTraefikNodes] fails exactly when the allocation listing fails,
    with the job name and the cause in its message. Otherwise every node it
    returns is built from a node resolved for a running allocation of the
    job, with the value of its ["unique.network.ip-address"] attribute (or
    [""]) as public address; and every node resolved for a running
    allocation is returned. Allocations that are not running, and nodes
    whose lookup fails, contribute nothing. *)
Theorem GetTraefikNodes_resolved (nc : Nomad.api) (TraefikJobName : string) :
  (forall err, Nomad.Allocations nc TraefikJobName = inl err ->
     Nomad.GetTraefikNodes nc TraefikJobName
     = inl ("Failed to get allocations for job " +:+ TraefikJobName
            +:+ ": " +:+ err)%string)
  /\ (forall allocs, Nomad.Allocations nc TraefikJobName = inr allocs ->
      exists nodes, Nomad.GetTraefikNodes nc TraefikJobName = inr nodes
      /\ (forall n, n ∈ nodes -> exists alloc node, alloc ∈ allocs
            /\ Nomad.ClientStatus alloc = "running"
            /\ Nomad.Info nc (Nomad.NodeID alloc) = inr node
            /\ n = NodeInfo.mk (Nomad.ID node) (Nomad.Name node)
                     (Nomad.index (Nomad.Attributes node)
                        "unique.network.ip-address")
                     (Nomad.Status node))
      /\ (forall alloc node, alloc ∈ allocs
            -> Nomad.ClientStatus alloc = "running"
            -> Nomad.Info nc (Nomad.NodeID alloc) = inr node
            -> Nomad.ID node ∈ NodeInfo.ID <$> nodes)).
Proof.
  unfold Nomad.GetTraefikNodes. split.
  - intros err Herr. by rewrite Herr.
  - intros allocs Hallocs. rewrite Hallocs. eexists. split; [reflexivity|].
    split.
    + intros n Hn. apply list_elem_of_fmap in Hn as ([k v] & Hv & Hkv).
      simpl in Hv. subst v. apply elem_of_map_to_list in Hkv.
      destruct (foldl_add_alloc_sound _ _ _ _ _ Hkv) as [H0|H]; [|exact H].
      by rewrite lookup_empty in H0.
    + intros alloc node Hin Hs Hi.
      destruct (foldl_add_alloc_complete nc allocs ∅ alloc node Hin Hs Hi)
        as [v Hv].
      pose proof (NomadFacts.foldl_add_alloc_keyed nc allocs ∅
                    ltac:(intros ?? Hk; by rewrite lookup_empty in Hk) _ _ Hv)
        as Hid.
      rewrite <- Hid. apply list_elem_of_fmap_2.
      apply list_elem_of_fmap. exists (Nomad.ID node, v). split; [done|].
      by apply elem_of_map_to_list.
Qed.

(** ** [WatchEvents] *)

(** X7. Once the stream is set up, as long as every receive yields a
    stream item and every send goes through, [WatchEvents] sends the
    decoded events of the items without error, in stream order, skipping
    the events [processEvent] drops; an item carrying an error is logged and
    its events are not looked at. When the context is then cancelled at a
    receive it returns [context canceled], having sent the same events. *)
Theorem WatchEvents_forwards (ws : list Watch.Events) (rest : list Watch.item) :
  let sent := omap Nomad.processEvent
                (concat (Watch.EventList <$> filter (fun w => Watch.Err w = None) ws)) in
  Watch.WatchEvents None (Watch.Recv <$> ws) (replicate (length sent) true)
    = (sent, omap Watch.Err ws, Watch.Watching)
  /\ Watch.WatchEvents None ((Watch.Recv <$> ws) ++ Watch.CtxDone :: rest)
       (replicate (length sent) true)
    = (sent, omap Watch.Err ws, Watch.Returned "context canceled").
Proof.
  simpl. split.
  - rewrite <- (app_nil_r (Watch.Recv <$> ws)).
    rewrite <- (app_nil_r (replicate _ true)). rewrite watch_loop_recvs. done.
  - rewrite <- (app_nil_r (replicate _ true)). rewrite watch_loop_recvs. done.
Qed.

(** X8. [WatchEvents] returns only when the stream cannot be set up (with
    the wrapped cause) or, with [context canceled], when the context is
    cancelled at a receive or at a send; it panics only on a receive from
    the closed stream channel. With no such receive, no cancellation and a
    stream set up, it keeps running whatever stream errors it gets. *)
Theorem WatchEvents_returns (setup : option string) (items : list Watch.item)
    (sends : list bool) :
  match (Watch.WatchEvents setup items sends).2 with
  | Watch.Watching => setup = None
  | Watch.Returned err =>
      (exists cause, setup = Some cause
         /\ err = ("failed to start event stream: " +:+ cause)%string)
      \/ (setup = None /\ err = "context canceled"
          /\ (Watch.CtxDone ∈ items \/ false ∈ sends))
  | Watch.Panicked => setup = None /\ Watch.RecvNil ∈ items
  end
  /\ (setup = None -> Watch.RecvNil ∉ items -> Watch.CtxDone ∉ items ->
      false ∉ sends -> (Watch.WatchEvents setup items sends).2 = Watch.Watching).
Proof.
  split.
  - destruct setup as [cause|]; simpl; [left; eauto|].
    pose proof (watch_loop_status items sends [] []) as H.
    destruct (Watch.watch_loop items sends [] []) as [[? ?] [| |]]; simpl in *;
      [done| |done].
    right. destruct H as [-> H]. done.
  - intros -> Hn Hc Hs. simpl. by apply watch_loop_quiet.
Qed.

(** X9. Every event [WatchEvents] sends is the decoding of a stream event of
    one of the four watched types, with that type, and carries the raw
    event. *)
Theorem WatchEvents_sent_watched_types (setup : option string)
    (items : list Watch.item) (sends : list bool) :
  Forall (fun ce => exists ev, Nomad.processEvent ev = Some ce
            /\ Nomad.ce_Type ce = Nomad.Type_ ev
            /\ Nomad.Type_ ev ∈ Nomad.known_types
            /\ Nomad.ce_Details ce = ev)
    (Watch.WatchEvents setup items sends).1.1.
Proof.
  destruct setup; simpl; [done|]. apply watch_loop_Forall; [|done].
  intros ev ce Hce. exists ev. destruct (processEvent_Some _ _ Hce) as (? & ? & ? & _).
  done.
Qed.


(** X10. The timestamp of a decoded event is its [uint64] index read as
    [int64] nanoseconds: the index itself below [2^63], the index minus
    [2^64] (a negative time) from [2^63] on. *)
Theorem processEvent_timestamp (event : Nomad.Event) (ce : Nomad.ClusterEvent) :
  Nomad.processEvent event = Some ce ->
  ((Z.of_N (Nomad.Index event) < 2 ^ 63)%Z ->
     Nomad.ce_Timestamp ce = Z.of_N (Nomad.Index event))
  /\ ((2 ^ 63 <= Z.of_N (Nomad.Index event) < 2 ^ 64)%Z ->
     Nomad.ce_Timestamp ce = (Z.of_N (Nomad.Index event) - 2 ^ 64)%Z).
Proof.
  intros Hce. destruct (processEvent_Some _ _ Hce) as (_ & _ & _ & ->).
  apply int64_of_uint64_spec.
Qed.

Lemma processEvent_timestamp_witness :
  Nomad.ce_Timestamp
    (Nomad.mkClusterEvent "NodeUpdated" (-1) "" ""
       (Nomad.mkEvent "Node" "NodeUpdated" "n1" 18446744073709551615 None))
  = (Z.of_N 18446744073709551615 - 2 ^ 64)%Z.
Proof.
  refine (proj2 (processEvent_timestamp
            (Nomad.mkEvent "Node" "NodeUpdated" "n1" 18446744073709551615 None)
            (Nomad.mkClusterEvent "NodeUpdated" (-1) "" ""
               (Nomad.mkEvent "Node" "NodeUpdated" "n1" 18446744073709551615 None))
            _) _).
  - vm_compute. reflexivity.
  - simpl. lia.
Defined.

(** ** The main loop of [Run] *)

(** X11. Passes of the main loop never stop it, whether they fail or not,
    and never change readiness; each failed pass adds one error line to the
    log ("Sync after event failed" or "Periodic sync failed"). *)
Theorem main_loop_passes_continue (s : Controller.Server)
    (ts : list Controller.trigger) :
  Forall (fun t => match t with
                   | Controller.NomadEvent _ | Controller.TickerFired _ => True
                   | _ => False
                   end) ts ->
  Controller.main_loop s ts
  = (Controller.mkServer (Controller.ready s)
       (Controller.logged s
        ++ omap (fun t => match t with
                          | Controller.NomadEvent (Some _) => Some "Sync after event failed"
                          | Controller.TickerFired (Some _) => Some "Periodic sync failed"
                          | _ => None
                          end) ts),
     Controller.Looping).
Proof. apply main_loop_failures_logged. Qed.

Lemma main_loop_passes_continue_witness :
  Controller.main_loop Controller.NewServer
    [Controller.NomadEvent (Some "timeout"); Controller.TickerFired None;
     Controller.TickerFired (Some "timeout")]
  = (Controller.mkServer false
       ([] ++ ["Sync after event failed"; "Periodic sync failed"]),
     Controller.Looping).
Proof.
  apply (main_loop_passes_continue Controller.NewServer
    [Controller.NomadEvent (Some "timeout"); Controller.TickerFired None;
     Controller.TickerFired (Some "timeout")]).
  repeat constructor.
Defined.

(** X12. The main loop returns at the first cancellation of the context,
    with [context canceled], or at the first fatal watcher error, with that
    error and one more log line; what follows is never looked at. *)
Theorem main_loop_stops_at_first (s : Controller.Server)
    (pre post : list Controller.trigger) :
  Forall (fun t => match t with
                   | Controller.NomadEvent _ | Controller.TickerFired _ => True
                   | _ => False
                   end) pre ->
  Controller.main_loop s (pre ++ Controller.CtxDone :: post)
    = ((Controller.main_loop s pre).1, Controller.Returned "context canceled")
  /\ forall err,
     Controller.main_loop s (pre ++ Controller.WatchFatal err :: post)
     = (Controller.log_error "Event watcher exceeded error threshold, shutting down"
          (Controller.main_loop s pre).1, Controller.Returned err).
Proof.
  revert s. induction pre as [|t pre IH]; intros s Hpre; [done|].
  apply Forall_cons in Hpre as [Ht Hpre].
  destruct t as [| |r|r]; try done; simpl; apply IH; done.
Qed.

Lemma main_loop_stops_at_first_witness :
  Controller.main_loop Controller.NewServer
    ([Controller.TickerFired (Some "timeout")] ++ Controller.CtxDone
       :: [Controller.WatchFatal "too many errors"])
  = ((Controller.main_loop Controller.NewServer
        [Controller.TickerFired (Some "timeout")]).1,
     Controller.Returned "context canceled").
Proof.
  apply (main_loop_stops_at_first Controller.NewServer
           [Controller.TickerFired (Some "timeout")]).
  repeat constructor.
Defined.

(** X13. The [/ready] endpoint of a running controller answers 200
    ["ready"] exactly when the startup pass succeeded, and 503
    ["not ready"] otherwise, whatever the main loop did since. *)
Theorem ready_endpoint_after_Run (initial : option string)
    (ts : list Controller.trigger) :
  Metrics.ready_handler (Controller.ready (Controller.Run initial ts).1)
  = match initial with
    | None => (200, "ready")
    | Some _ => (503, "not ready")
    end.
Proof.
  unfold Controller.Run. rewrite ControllerFacts.main_loop_ready.
  by destruct initial.
Qed.

(** ** The metered [syncDNSRecords] *)

(** X15. Each pass counts one sync and one duration observation; it counts
    one error exactly when it returns an error, and sets the last-success
    time to [now] exactly when it succeeds. With metrics not initialised
    nothing is recorded. *)
Theorem metered_sync_counters (m : Metrics.Metrics) (duration now : Z)
    (nc : Nomad.api) (TraefikJobName : string) (p : provider) :
  match Metrics.syncDNSRecords (Some m) duration now nc TraefikJobName p with
  | (_, err, Some m') =>
      Metrics.SyncTotal m' = S (Metrics.SyncTotal m)
      /\ Metrics.SyncDuration m' = Metrics.SyncDuration m ++ [duration]
      /\ Metrics.SyncErrors m'
         = Metrics.SyncErrors m + match err with Some _ => 1 | None => 0 end
      /\ Metrics.LastSyncTime m'
         = match err with Some _ => Metrics.LastSyncTime m | None => now end
  | (_, _, None) => False
  end
  /\ (Metrics.syncDNSRecords None duration now nc TraefikJobName p).2 = None.
Proof.
  unfold Metrics.syncDNSRecords, Metrics.record.
  destruct (Nomad.GetTraefikNodes nc TraefikJobName) as [err|nodes].
  - simpl. split; [|done]. split_and!; try done. lia.
  - destruct (SyncARecords p (Controller.extract_ips nodes [])) as [log [err|]];
      simpl; (split; [|done]); split_and!; try done; lia.
Qed.

(** X16. The gauges a pass sets: when the nodes cannot be listed, no DNS
    call is made and both gauges are [0]; otherwise the node gauge is the
    number of nodes found and the record gauge the number of ready nodes
    with an address. The record gauge never exceeds the node gauge. *)
Theorem metered_sync_gauges (m : Metrics.Metrics) (duration now : Z)
    (nc : Nomad.api) (TraefikJobName : string) (p : provider) :
  exists m', (Metrics.syncDNSRecords (Some m) duration now nc TraefikJobName p).2
             = Some m'
  /\ Metrics.DNSRecordsTotal m' <= Metrics.TraefikNodes m'
  /\ match Nomad.GetTraefikNodes nc TraefikJobName with
     | inl _ =>
         (Metrics.syncDNSRecords (Some m) duration now nc TraefikJobName p).1.1 = []
         /\ Metrics.DNSRecordsTotal m' = 0 /\ Metrics.TraefikNodes m' = 0
     | inr nodes =>
         Metrics.TraefikNodes m' = length nodes
         /\ Metrics.DNSRecordsTotal m'
            = length (filter (fun n => NodeInfo.Status n = "ready"
                                       /\ NodeInfo.PublicIPAddress n <> "") nodes)
     end.
Proof.
  unfold Metrics.syncDNSRecords, Metrics.record.
  destruct (Nomad.GetTraefikNodes nc TraefikJobName) as [err|nodes].
  - eexists. split; [reflexivity|]. simpl. repeat split; lia.
  - pose proof (ControllerFacts.extract_ips_spec nodes []) as Hips.
    assert (length (Controller.extract_ips nodes [])
            = length (filter (fun n => NodeInfo.Status n = "ready"
                                       /\ NodeInfo.PublicIPAddress n <> "") nodes))
      as Hlen by (rewrite Hips; simpl; by rewrite length_fmap).
    pose proof (length_filter (fun n => NodeInfo.Status n = "ready"
                                 /\ NodeInfo.PublicIPAddress n <> "") nodes).
    destruct (SyncARecords p (Controller.extract_ips nodes [])) as [log [err|]];
      eexists; (split; [reflexivity|]); simpl; repeat split; lia.
Qed.

(** ** [LoadConfig] *)

(** X17. A configuration [LoadConfig] returns has non-empty Cloudflare
    token, zone id and Nomad token, copied from the environment, and a
    non-empty Nomad address and log level: the variable's value when set,
    ["http://localhost:8686"] and ["info"] otherwise. *)
Theorem LoadConfig_success_fields (e : env) (cfg : Config.Config) :
  Config.LoadConfig e = inr cfg ->
  Config.CloudflareToken cfg = e "CLOUDFLARE_API_TOKEN"
  /\ Config.CloudflareZoneId cfg = e "CLOUDFLARE_ZONE_ID"
  /\ Config.NomadToken cfg = e "NOMAD_TOKEN"
  /\ Config.CloudflareToken cfg <> "" /\ Config.CloudflareZoneId cfg <> ""
  /\ Config.NomadToken cfg <> ""
  /\ Config.NomadAddress cfg
     = (if decide (e "NOMAD_ADDR" = "") then "http://localhost:8686"
        else e "NOMAD_ADDR")
  /\ Config.LogLevel cfg
     = (if decide (e "LOG_LEVEL" = "") then "info" else e "LOG_LEVEL")
  /\ Config.NomadAddress cfg <> "" /\ Config.LogLevel cfg <> "".
Proof.
  unfold Config.LoadConfig. rewrite !getEnvOrDefault_spec. simpl.
  repeat case_decide; intros Hc; try discriminate; injection Hc as <-; simpl;
    split_and!; done.
Qed.

Lemma LoadConfig_success_fields_witness :
  let e : env := fun k => if decide (k = "LOG_LEVEL") then "debug"
                          else if decide (k = "NOMAD_ADDR") then "" else "set" in
  Config.LoadConfig e
    = inr (Config.mkConfig "http://localhost:8686" "set" "set" "set" "set" "set"
             "debug")
  /\ Config.NomadAddress (Config.mkConfig "http://localhost:8686" "set" "set"
                            "set" "set" "set" "debug")
     = (if decide (e "NOMAD_ADDR" = "") then "http://localhost:8686"
        else e "NOMAD_ADDR").
Proof.
  intros e. assert (H : Config.LoadConfig e
    = inr (Config.mkConfig "http://localhost:8686" "set" "set" "set" "set" "set"
             "debug")) by (vm_compute; reflexivity).
  split; [exact H|].
  exact (proj1 (proj2 (proj2 (proj2 (proj2 (proj2 (proj2
           (LoadConfig_success_fields e _ H)))))))).
Defined.

(** X18. A configuration the second [LoadConfig] returns has non-empty
    Cloudflare token, zone id, record name and Nomad token, copied from the
    environment, and a job name that is never empty: the variable's value
    when set, ["ingress"] otherwise. *)
Theorem LoadConfigV2_success_fields (e : env) (cfg : ConfigV2.Config) :
  ConfigV2.LoadConfig e = inr cfg ->
  ConfigV2.CloudflareToken cfg = e "CLOUDFLARE_API_TOKEN"
  /\ ConfigV2.CloudflareZoneID cfg = e "CLOUDFLARE_ZONE_ID"
  /\ ConfigV2.DNSRecordName cfg = e "DNS_RECORD_NAME"
  /\ ConfigV2.NomadToken cfg = e "NOMAD_TOKEN"
  /\ ConfigV2.CloudflareToken cfg <> "" /\ ConfigV2.CloudflareZoneID cfg <> ""
  /\ ConfigV2.DNSRecordName cfg <> "" /\ ConfigV2.NomadToken cfg <> ""
  /\ ConfigV2.TraefikJobName cfg
     = (if decide (e "TRAEFIK_JOB_NAME" = "") then "ingress"
        else e "TRAEFIK_JOB_NAME")
  /\ ConfigV2.TraefikJobName cfg <> "".
Proof.
  unfold ConfigV2.LoadConfig. rewrite !getEnvOrDefault_spec. simpl.
  repeat case_decide; intros Hc; try discriminate; injection Hc as <-; simpl;
    split_and!; done.
Qed.

Lemma LoadConfigV2_success_fields_witness :
  let e : env := fun k => if decide (k = "TRAEFIK_JOB_NAME") then "" else "set" in
  ConfigV2.TraefikJobName (ConfigV2.mkConfig "set" "set" "set" "set" "ingress"
                             "set" "set")
  = (if decide (e "TRAEFIK_JOB_NAME" = "") then "ingress"
     else e "TRAEFIK_JOB_NAME").
Proof.
  intros e. refine (proj1 (proj2 (proj2 (proj2 (proj2 (proj2 (proj2 (proj2
    (proj2 (LoadConfigV2_success_fields e _ _)))))))))).
  vm_compute. reflexivity.
Defined.

(** X19. The second [LoadConfig] never reports a missing
    [TRAEFIK_JOB_NAME]: its check on the job name cannot fire, the name
    having defaulted to ["ingress"]. *)
Theorem LoadConfigV2_job_name_check_dead (e : env) :
  ConfigV2.LoadConfig e <> inl "variable TRAEFIK_JOB_NAME is not set and is required".
Proof.
  unfold ConfigV2.LoadConfig. rewrite !getEnvOrDefault_spec. simpl.
  repeat case_decide; simpl in *; try congruence; discriminate.
Qed.
